(** * jax-js: padding policy, view tracker and CPU backend

  A shallow embedding of the parts of jax-js that its design document
  makes checkable statements about:

  - [Lax]: [padtypeToPads], the padding policy of the convolution operator
    (lax.ts);
  - [Alu] and [Shape]: the scalar expression engine and the view tracker
    that the CPU backend drives;
  - [F32]: the [Float32Array] view of an [ArrayBuffer];
  - [Cpu]: [CPUBackend] (backend/cpu.ts), its reference-counted slots and
    its element-at-a-time operations.

  The integers of the code (sizes, shapes, indices, handles) are modelled as
  mathematical integers ([Z]), which is exact below 2^53; the 32-bit
  coercion of the shift operator is written out.  The elements of the
  buffers are IEEE 754 numbers.

  Two things the code leaves to the JavaScript engine are parameters of
  the model: the case mapping of [String.prototype.toUpperCase]
  ([Js.CaseMapping]) and the bits a typed array writes for a NaN
  ([F32.NaNEncoding]).  What is proved holds for every engine. *)

From Stdlib Require Import ZArith String Ascii List Lia Sorted.
From Stdlib Require Import Floats.SpecFloat.
From Stdlib Require Import Strings.Byte.
From stdpp Require Import gmap strings list.

Open Scope Z_scope.

(** ** JavaScript errors and results *)

Module Js.

(** The exceptions the modelled code can raise.  [Error] is the plain
    [Error(msg)]; [RangeError] and [TypeError] are raised by the language;
    [SlotError] is the class cpu.ts imports from backend.ts, raised with the
    slot that is not live. *)
Inductive exn : Type :=
| Error (msg : string)
| RangeError (msg : string)
| TypeError (msg : string)
| SlotError (slot : Z).

(** The outcome of a call: a returned value or a thrown exception. *)
Inductive result (A : Type) : Type :=
| Ok (a : A)
| Throw (e : exn).

Arguments Ok {A} a.
Arguments Throw {A} e.

(** [x >> n]: the left operand is coerced to a signed 32-bit integer, the
    shift count is taken modulo 32. *)
Definition toInt32 (x : Z) : Z := (x + 2 ^ 31) mod 2 ^ 32 - 2 ^ 31.

Definition sar (x n : Z) : Z := Z.shiftr (toInt32 x) (n mod 32).

(** [Math.ceil(a / b)] on integers with [b] non-zero: the quotient is the
    real one, so the result is the mathematical ceiling. *)
Definition ceil_div (a b : Z) : Z := - ((- a) / b).

(** A JavaScript string is modelled by its UTF-8 bytes, so that its ASCII
    characters are the bytes below 128. *)
Definition isAscii (s : string) : bool :=
  forallb (fun c => (N_of_ascii c <? 128)%N) (list_ascii_of_string s).

(** Upper-casing on the ASCII range: the letters a-z become A-Z, every other
    character is left as it is. *)
Definition upper_ascii (c : ascii) : ascii :=
  let n := N_of_ascii c in
  if ((97 <=? n) && (n <=? 122))%N then ascii_of_N (n - 32) else c.

Fixpoint asciiUpper (s : string) : string :=
  match s with
  | EmptyString => EmptyString
  | String c s' => String (upper_ascii c) (asciiUpper s')
  end.

(** [String.prototype.toUpperCase] is the engine's: it follows the Unicode
    case mappings (a dotless i becomes I, a long s becomes S, a sharp s
    becomes SS), a table that is no part of the code.  The model takes the
    function as a parameter and fixes it where the Unicode mappings are
    those of ASCII: on a string of ASCII characters. *)
Class CaseMapping : Type := {
  toUpperCase : string -> string;
  toUpperCase_ascii :
    forall s, isAscii s = true -> toUpperCase s = asciiUpper s
}.

(** A case mapping that leaves every character outside ASCII as it is. *)
Definition asciiCase : CaseMapping :=
  {| toUpperCase := asciiUpper; toUpperCase_ascii := fun _ _ => eq_refl |}.

End Js.

(** ** lax.ts: the padding policy *)

Module Lax.
Import Js.

(** Modelled from the spec: [rep] of utils.ts, which lax.ts imports and
    which is not under src/.  [rep n x] is the array of [n] copies of [x]
    (zero padding on every dimension). *)
Definition rep {A : Type} (n : nat) (x : A) : list A := repeat x n.

(** Modelled from the spec: [zipn] of utils.ts, which lax.ts imports and
    which is not under src/.  It makes one tuple per dimension out of the
    per-dimension arrays, as long as every array has an entry for it. *)
Fixpoint zipn (os ss ks ds is_ : list Z) : list (Z * Z * Z * Z * Z) :=
  match os, ss, ks, ds, is_ with
  | o :: os', s :: ss', k :: ks', d :: ds', i :: is' =>
      (o, s, k, d, i) :: zipn os' ss' ks' ds' is'
  | _, _, _, _, _ => []
  end.

(** [inShape.map((size, i) => Math.ceil(size / strides[i]))]; the callers
    pass one stride per dimension. *)
Definition outShape (inShape strides : list Z) : list Z :=
  imap (fun i size => ceil_div size (nth i strides 0)) inShape.

(** [Math.max(0, (o - 1) * s + 1 + (k - 1) * d - i)] *)
Definition padSize (t : Z * Z * Z * Z * Z) : Z :=
  let '(o, s, k, d, i) := t in
  Z.max 0 ((o - 1) * s + 1 + (k - 1) * d - i).

Definition padSizes (inShape filterShape strides dilation : list Z) : list Z :=
  padSize <$>
    zipn (outShape inShape strides) strides filterShape dilation inShape.

(** The two splits: [[size >> 1, size - (size >> 1)]] and its mirror. *)
Definition splitSame (size : Z) : Z * Z := (sar size 1, size - sar size 1).
Definition splitSameLower (size : Z) : Z * Z := (size - sar size 1, sar size 1).

Definition padtypeToPads {cm : CaseMapping}
    (inShape filterShape strides dilation : list Z) (padding : string)
    : result (list (Z * Z)) :=
  let padType := toUpperCase padding in
  if String.eqb padType "VALID" then
    Ok (rep (length inShape) (0, 0))
  else if String.eqb padType "SAME" || String.eqb padType "SAME_LOWER" then
    let sizes := padSizes inShape filterShape strides dilation in
    if String.eqb padType "SAME" then Ok (splitSame <$> sizes)
    else Ok (splitSameLower <$> sizes)
  else
    Throw (Error ("Unknown padding type: " ++ padType)).

End Lax.

(** ** The scalar expression engine *)

Module Alu.
Import Js.

(** Modelled from the spec: [DType] of alu.ts, which is not under src/.
    Every node has a fixed scalar data type, integer or boolean. *)
Inductive DType : Type := Int32 | Bool.

(** Modelled from the spec: the kinds of binary operation of alu.ts, which
    is not under src/: arithmetic (add, mul, floordiv, mod) and relational
    or logical (lt, ge, and, or). *)
Inductive BinKind : Type :=
| Add | Mul | Idiv | Mod | Cmplt | Cmpge | And | Or.

(** Modelled from the spec: [AluExp] of alu.ts, which is not under src/.  An
    expression node is a constant, a free variable, a special (bound-range)
    variable carrying its extent, a binary operation or a selection. *)
Inductive AluExp : Type :=
| Const (dtype : DType) (value : Z)
| Var (dtype : DType) (name : string)
| Special (dtype : DType) (name : string) (extent : Z)
| BinaryOp (kind : BinKind) (left right : AluExp)
| Select (cond ifTrue ifFalse : AluExp).

(** The constructors the callers use. *)
Definition variable (dtype : DType) (name : string) : AluExp :=
  Var dtype name.
Definition special (dtype : DType) (name : string) (extent : Z) : AluExp :=
  Special dtype name extent.
Definition int (v : Z) : AluExp := Const Int32 v.
Definition add (a b : AluExp) : AluExp := BinaryOp Add a b.
Definition mul (a b : AluExp) : AluExp := BinaryOp Mul a b.
Definition idiv (a b : AluExp) : AluExp := BinaryOp Idiv a b.
Definition mod_ (a b : AluExp) : AluExp := BinaryOp Mod a b.
Definition cmplt (a b : AluExp) : AluExp := BinaryOp Cmplt a b.
Definition cmpge (a b : AluExp) : AluExp := BinaryOp Cmpge a b.
Definition and_ (a b : AluExp) : AluExp := BinaryOp And a b.

(** JavaScript truthiness of a number. *)
Definition truthy (v : Z) : bool := negb (v =? 0).

Definition of_bool (b : bool) : Z := if b then 1 else 0.

(** Modelled from the spec: the arithmetic of [evaluate].  Division and
    remainder round toward negative infinity, so the remainder by a positive
    modulus is never negative; a boolean result is 0 or 1. *)
Definition evalBin (kind : BinKind) (x y : Z) : Z :=
  match kind with
  | Add => x + y
  | Mul => x * y
  | Idiv => x / y
  | Mod => x mod y
  | Cmplt => of_bool (x <? y)
  | Cmpge => of_bool (y <=? x)
  | And => of_bool (truthy x && truthy y)
  | Or => of_bool (truthy x || truthy y)
  end.

(** The failure of an evaluation without all its names bound. *)
Definition unbound (name : string) : exn :=
  Error ("UnboundVariable: " ++ name).

(** Modelled from the spec: [evaluate] of alu.ts, which is not under src/.
    Every variable and special is looked up in the bindings, and a missing
    one is the [UnboundVariable] failure; a selection evaluates its chosen
    branch only. *)
Fixpoint evaluate (bindings : gmap string Z) (e : AluExp) : result Z :=
  match e with
  | Const _ v => Ok v
  | Var _ name | Special _ name _ =>
      match bindings !! name with
      | Some v => Ok v
      | None => Throw (unbound name)
      end
  | BinaryOp kind l r =>
      match evaluate bindings l with
      | Ok x =>
          match evaluate bindings r with
          | Ok y => Ok (evalBin kind x y)
          | Throw err => Throw err
          end
      | Throw err => Throw err
      end
  | Select c t f =>
      match evaluate bindings c with
      | Ok b => if truthy b then evaluate bindings t else evaluate bindings f
      | Throw err => Throw err
      end
  end.

(** The names an expression mentions. *)
Fixpoint names (e : AluExp) : list string :=
  match e with
  | Const _ _ => []
  | Var _ name | Special _ name _ => [name]
  | BinaryOp _ l r => names l ++ names r
  | Select c t f => names c ++ names t ++ names f
  end.

(** [closed X e]: the expression mentions names of [X] only. *)
Definition closed (X : list string) (e : AluExp) : Prop :=
  forall x, x ∈ names e -> x ∈ X.

End Alu.

(** ** The view tracker *)

Module Shape.
Import Js Alu.

(** Modelled from the spec: the views of shape.ts, which is not under src/.
    A view is a sequence of logical dimension sizes together with either a
    stride and offset encoding or a padding or window specification. *)
Inductive ViewKind : Type :=
| Strided (strides : list Z) (offset : Z)
| Padded (pads : list (Z * Z))
| Window (window strides : list Z).

(** Modelled from the spec: one layer of an index transformation, its
    logical dimension sizes and its encoding. *)
Record View : Type := mkView { vshape : list Z; vkind : ViewKind }.

(** Modelled from the spec: [ShapeTracker] of shape.ts, which is not under
    src/.  A tracker owns its views, oldest first, and its current logical
    shape. *)
Record ShapeTracker : Type := mkTracker { views : list View; shape : list Z }.

Definition prod (l : list Z) : Z := fold_right Z.mul 1 l.

(** Row-major strides of a shape. *)
Fixpoint contiguous (shape : list Z) : list Z :=
  match shape with
  | [] => []
  | _ :: rest => prod rest :: contiguous rest
  end.

(** Modelled from the spec: [ShapeTracker.fromShape], the root constructor:
    one identity view with matching strides. *)
Definition fromShape (shape : list Z) : ShapeTracker :=
  mkTracker [mkView shape (Strided (contiguous shape) 0)] shape.

(** Modelled from the spec: [unravelAlu] of shape.ts, which cpu.ts imports
    and which is not under src/.  It gives the logical index of every
    dimension of [shape] at the flat, row-major position [index] (the
    logical output position of the reference backend). *)
Fixpoint unravelAlu (shape : list Z) (index : AluExp) : list AluExp :=
  match shape with
  | [] => []
  | size :: rest =>
      mod_ (idiv index (int (prod rest))) (int size) :: unravelAlu rest index
  end.

(** Modelled from the spec: the flat offset of a stride and offset view. *)
Fixpoint stridedIndex (offset : AluExp) (idxs : list AluExp) (strides : list Z)
    : AluExp :=
  match idxs, strides with
  | idx :: idxs', st :: strides' =>
      stridedIndex (add offset (mul idx (int st))) idxs' strides'
  | _, _ => offset
  end.

(** Modelled from the spec: a pooled coordinate [(o, w)] reads the input at
    [o * stride + w] in every dimension. *)
Fixpoint windowIndex (os ws : list AluExp) (strides : list Z) : list AluExp :=
  match os, ws, strides with
  | o :: os', w :: ws', s :: strides' =>
      add (mul o (int s)) w :: windowIndex os' ws' strides'
  | _, _, _ => []
  end.

(** Modelled from the spec: a padded dimension of size [size], extended by
    [(before, after)].  Position [i] is position [i - before] of the
    dimension before padding, and it is valid when
    [before <= i < size - after]. *)
Fixpoint paddedIndex (idxs : list AluExp) (pads : list (Z * Z)) : list AluExp :=
  match idxs, pads with
  | i :: idxs', (before, _) :: pads' =>
      add i (int (- before)) :: paddedIndex idxs' pads'
  | _, _ => []
  end.

Fixpoint paddedValid (valid : AluExp) (idxs : list AluExp) (sizes : list Z)
    (pads : list (Z * Z)) : AluExp :=
  match idxs, sizes, pads with
  | i :: idxs', size :: sizes', (before, after) :: pads' =>
      paddedValid
        (and_ valid (and_ (cmpge i (int before)) (cmplt i (int (size - after)))))
        idxs' sizes' pads'
  | _, _, _ => valid
  end.

(** Modelled from the spec: one view applied to the indices (and validity)
    handed down by the newer views.  Padding adds one condition per
    dimension; pooling adds no invalidity of its own. *)
Definition applyView (v : View) (acc : list AluExp * AluExp)
    : list AluExp * AluExp :=
  let '(idxs, valid) := acc in
  match vkind v with
  | Strided strides offset =>
      ([stridedIndex (int offset) idxs strides], valid)
  | Padded pads =>
      (paddedIndex idxs pads, paddedValid valid idxs (vshape v) pads)
  | Window window strides =>
      let r := length window in
      (windowIndex (take r idxs) (drop r idxs) strides, valid)
  end.

(** Modelled from the spec: [toAluExp], the flat offset and the validity
    of the logical indices, composing all views.  The indices are those of
    the newest view; every view hands the indices of the view before it
    down, and the oldest one yields the offset into the buffer. *)
Definition toAluExp (st : ShapeTracker) (indices : list AluExp)
    : AluExp * AluExp :=
  let '(idxs, valid) :=
    fold_right applyView (indices, Const Bool 1) (views st) in
  (hd (int 0) idxs, valid).

(** Modelled from the spec: [pad(padsPerDim)], which extends every dimension
    by its [(before, after)] and marks the positions outside the original
    range invalid. *)
Definition pad (st : ShapeTracker) (pads : list (Z * Z)) : ShapeTracker :=
  let newShape := zip_with (fun size p => fst p + size + snd p) (shape st) pads in
  mkTracker (views st ++ [mkView newShape (Padded pads)]) newShape.

End Shape.

(** ** Float32Array over an ArrayBuffer *)

Module F32.

(** An [ArrayBuffer] is a sequence of bytes. *)
Abbreviation ArrayBuffer := (list byte).

(** A JavaScript number is an IEEE 754 binary64 value.  The integers of
    the index arithmetic stay in [Z]; the elements read from and stored into
    the buffers are [number]s, added and multiplied in binary64. *)
Definition number : Type := spec_float.

Definition jsAdd (x y : number) : number := SFadd 53 1024 x y.
Definition jsMul (x y : number) : number := SFmul 53 1024 x y.

(** The number [0]. *)
Definition zero : number := S754_zero false.

(** Storing a number into a [Float32Array] rounds it to binary32. *)
Definition fround (x : number) : number :=
  match x with
  | S754_finite s m e => binary_normalize 24 128 (cond_Zopp s (Z.pos m)) e s
  | _ => x
  end.

(** The binary32 values: a mantissa below 2^24 with an exponent from -149
    to 104, and a mantissa of 24 bits unless the exponent is the least
    one. *)
Definition representable (x : number) : Prop :=
  match x with
  | S754_finite _ m e =>
      -149 <= e <= 104 /\ Z.pos m < 2 ^ 24 /\ (-149 < e -> 2 ^ 23 <= Z.pos m)
  | _ => True
  end.

(** The 32 bits of a binary32 value that is not a NaN. *)
Definition signBit (s : bool) : Z := if s then 2 ^ 31 else 0.

Definition bitsOf (x : number) : option Z :=
  match x with
  | S754_zero s => Some (signBit s)
  | S754_infinity s => Some (signBit s + 255 * 2 ^ 23)
  | S754_nan => None
  | S754_finite s m e =>
      Some (if Z.pos m <? 2 ^ 23 then signBit s + Z.pos m
            else signBit s + (e + 150) * 2 ^ 23 + (Z.pos m - 2 ^ 23))
  end.

Definition ofBits (bits : Z) : number :=
  let s := 2 ^ 31 <=? bits in
  let e := (bits / 2 ^ 23) mod 256 in
  let m := bits mod 2 ^ 23 in
  if e =? 0 then
    match m with Z.pos p => S754_finite s p (-149) | _ => S754_zero s end
  else if e =? 255 then
    if m =? 0 then S754_infinity s else S754_nan
  else
    match m + 2 ^ 23 with Z.pos p => S754_finite s p (e - 150) | _ => S754_nan end.

(** The 32-bit patterns that are a NaN. *)
Definition isNaN32 (bits : Z) : bool :=
  (0 <=? bits) && (bits <? 2 ^ 32)
  && match ofBits bits with S754_nan => true | _ => false end.

(** The bits a typed array writes for a NaN are the engine's choice:
    ECMAScript allows any binary32 NaN, and engines write 7fc00000 or
    ffc00000 depending on the platform and on how the NaN arose.  The model
    takes the choice as a parameter: [nan32 buf idx] are the bits written
    when a NaN is stored at position [idx] of the array over [buf]. *)
Class NaNEncoding : Type := {
  nan32 : ArrayBuffer -> Z -> Z;
  nan32_NaN : forall buf idx, isNaN32 (nan32 buf idx) = true
}.

(** 7fc00000 and ffc00000, the quiet NaN of either sign. *)
Definition quietNaN (s : bool) : Z := signBit s + 255 * 2 ^ 23 + 2 ^ 22.

(** An engine that writes ffc00000 for every NaN. *)
Definition negativeNaN : NaNEncoding :=
  {| nan32 := fun _ _ => quietNaN true; nan32_NaN := fun _ _ => eq_refl |}.

(** Typed arrays use the byte order of the platform: little-endian. *)
Definition byteOf (n : Z) : byte :=
  match Byte.of_N (Z.to_N (n mod 256)) with Some b => b | None => x00 end.

Definition bytes32 (bits : Z) : ArrayBuffer :=
  [byteOf bits; byteOf (bits / 2 ^ 8); byteOf (bits / 2 ^ 16);
   byteOf (bits / 2 ^ 24)].

Definition bits32 (bytes : ArrayBuffer) : Z :=
  fold_right (fun b acc => Z.of_N (Byte.to_N b) + 256 * acc) 0 bytes.

(** The four bytes of a number stored as binary32, [nan] being the bits
    written if it is a NaN. *)
Definition encode (nan : Z) (x : number) : ArrayBuffer :=
  bytes32 (match bitsOf (fround x) with Some bits => bits | None => nan end).

Definition decode (bytes : ArrayBuffer) : number := ofBits (bits32 bytes).

Definition byteLength (buf : ArrayBuffer) : Z := Z.of_nat (length buf).

(** [new Float32Array(buf).length] *)
Definition length32 (buf : ArrayBuffer) : Z := byteLength buf / 4.

(** The four bytes of element [idx]. *)
Definition element (buf : ArrayBuffer) (idx : Z) : ArrayBuffer :=
  take 4 (drop (Z.to_nat (4 * idx)) buf).

(** [a32[idx]]: [undefined] outside the array. *)
Definition get (buf : ArrayBuffer) (idx : Z) : option number :=
  if (0 <=? idx) && (idx <? length32 buf) then
    Some (decode (element buf idx))
  else None.

(** [c32[idx] = v]: ignored outside the array. *)
Definition set {enc : NaNEncoding} (buf : ArrayBuffer) (idx : Z) (v : number)
    : ArrayBuffer :=
  if (0 <=? idx) && (idx <? length32 buf) then
    take (Z.to_nat (4 * idx)) buf ++ encode (nan32 buf idx) v
      ++ drop (Z.to_nat (4 * idx) + 4) buf
  else buf.

(** A small integer as a number, and the buffer of a [Float32Array] of
    small integers (none of which is a NaN). *)
Definition ofZ (z : Z) : number := binary_normalize 53 1024 z 0 false.

Definition ofList (l : list Z) : ArrayBuffer :=
  flat_map (fun z => encode (quietNaN false) (ofZ z)) l.

End F32.

(** ** backend/cpu.ts: the CPU backend *)

Module Cpu.
Import Js Alu Shape F32.

(** Modelled from the spec: [Slot] of backend.ts, which is not under src/:
    an opaque integer handle. *)
Abbreviation Slot := Z (only parsing).

(** Modelled from the spec: [BackendOp] of backend.ts, which is not under
    src/: the operation kinds, those [cpuOps] has an entry for. *)
Inductive BackendOp : Type := Add | Mul.

(** The value of a [buffers] entry, [{ ref, buffer }]. *)
Record Entry : Type := mkEntry { ref : Z; buffer : ArrayBuffer }.

Record CPUBackend : Type := mkBackend {
  buffers : gmap Z Entry;
  nextSlot : Z
}.

(** [new CPUBackend()] *)
Definition new : CPUBackend := mkBackend ∅ 1.

(** A method runs on the backend and returns or throws; what it has
    written before throwing stays written. *)
Definition M (A : Type) : Type := CPUBackend -> result A * CPUBackend.

Definition ret {A : Type} (a : A) : M A := fun σ => (Ok a, σ).
Definition throw {A : Type} (e : exn) : M A := fun σ => (Throw e, σ).
Definition bind {A B : Type} (m : M A) (k : A -> M B) : M B :=
  fun σ =>
    match m σ with
    | (Ok a, σ') => k a σ'
    | (Throw e, σ') => (Throw e, σ')
    end.
Definition lift {A : Type} (r : result A) : M A := fun σ => (r, σ).

Notation "'let*' x := m 'in' k" := (bind m (fun x => k))
  (at level 10, x name, m at level 100, k at level 200).

Fixpoint mapM {A B : Type} (f : A -> M B) (l : list A) : M (list B) :=
  match l with
  | [] => ret []
  | x :: l' => let* y := f x in let* ys := mapM f l' in ret (y :: ys)
  end.

(** [for (let i = start; i < start + count; i++) body(i)] *)
Fixpoint forLoop (count : nat) (i : Z) (body : Z -> M unit) : M unit :=
  match count with
  | O => ret tt
  | S count' => let* _ := body i in forLoop count' (i + 1) body
  end.

(** [new Uint8Array(buffer).set(new Uint8Array(initialData))] *)
Definition uint8Set (buffer data : ArrayBuffer) : ArrayBuffer :=
  data ++ drop (length data) buffer.

Definition malloc (size : Z) (initialData : option ArrayBuffer) : M Slot :=
  fun σ =>
    if size <? 0 then (Throw (RangeError "Invalid array buffer length"), σ)
    else
      let buffer := repeat x00 (Z.to_nat size) in
      let filled :=
        match initialData with
        | Some data =>
            if negb (byteLength data =? size) then
              Throw (Error "initialData size does not match buffer size")
            else Ok (uint8Set buffer data)
        | None => Ok buffer
        end in
      match filled with
      | Throw e => (Throw e, σ)
      | Ok buffer =>
          let slot := nextSlot σ in
          (Ok slot,
           mkBackend (<[slot := mkEntry 1 buffer]> (buffers σ)) (nextSlot σ + 1))
      end.

Definition incRef (slot : Slot) : M unit :=
  fun σ =>
    match buffers σ !! slot with
    | None => (Throw (SlotError slot), σ)
    | Some e =>
        (Ok tt,
         mkBackend (<[slot := mkEntry (ref e + 1) (buffer e)]> (buffers σ))
                   (nextSlot σ))
    end.

Definition decRef (slot : Slot) : M unit :=
  fun σ =>
    match buffers σ !! slot with
    | None => (Throw (SlotError slot), σ)
    | Some e =>
        let e' := mkEntry (ref e - 1) (buffer e) in
        if ref e' =? 0 then
          (Ok tt, mkBackend (delete slot (buffers σ)) (nextSlot σ))
        else
          (Ok tt, mkBackend (<[slot := e']> (buffers σ)) (nextSlot σ))
    end.

(** [#getBuffer] *)
Definition getBuffer (slot : Slot) : M ArrayBuffer :=
  fun σ =>
    match buffers σ !! slot with
    | None => (Throw (SlotError slot), σ)
    | Some e => (Ok (buffer e), σ)
    end.

(** [ArrayBuffer.prototype.slice(begin, end)]: negative positions count
    from the end, both are clamped to the buffer. *)
Definition slice (buf : ArrayBuffer) (begin end_ : Z) : ArrayBuffer :=
  let len := byteLength buf in
  let clamp x := if x <? 0 then Z.max (len + x) 0 else Z.min x len in
  let first := clamp begin in
  let final := clamp end_ in
  take (Z.to_nat (final - first)) (drop (Z.to_nat first) buf).

Definition readSync (slot : Slot) (start count : option Z) : M ArrayBuffer :=
  let* buffer := getBuffer slot in
  let start := match start with Some s => s | None => 0 end in
  let count := match count with Some c => c | None => byteLength buffer - start end in
  ret (slice buffer start (start + count)).

(** *** The operation table

    An [ArrayBuffer] is a mutable object and the typed arrays made from it
    are views of it.  The backend holds one buffer object per live slot,
    so the operations below are handed the slots as the references to the
    buffer objects and read and write through the backend: an output that
    is also an input is seen as such. *)

(** The bytes behind a reference; a missing argument is [undefined]. *)
Definition bytesOf (σ : CPUBackend) (r : option Z) : option ArrayBuffer :=
  match r with
  | Some slot => buffer <$> buffers σ !! slot
  | None => None
  end.

(** [new Float32Array(x)]: of [undefined], the empty array; of a buffer
    whose byte length is not a multiple of 4, a [RangeError]. *)
Definition newFloat32Array (r : option Z) : M unit :=
  fun σ =>
    match bytesOf σ r with
    | Some buf =>
        if byteLength buf mod 4 =? 0 then (Ok tt, σ)
        else
          (Throw (RangeError
             "byte length of Float32Array should be a multiple of 4"), σ)
    | None => (Ok tt, σ)
    end.

Definition view (σ : CPUBackend) (r : option Z) : ArrayBuffer :=
  match bytesOf σ r with Some buf => buf | None => [] end.

(** [x32.length], [x32[idx]] and [x32[i] = v] on the view of a reference. *)
Definition lengthOf (r : option Z) : M Z :=
  fun σ => (Ok (length32 (view σ r)), σ).

Definition load (r : option Z) (idx : Z) : M (option number) :=
  fun σ => (Ok (get (view σ r) idx), σ).

Definition store {enc : NaNEncoding} (r : option Z) (i : Z) (v : number)
    : M unit :=
  fun σ =>
    match r with
    | Some slot =>
        match buffers σ !! slot with
        | Some e =>
            (Ok tt,
             mkBackend
               (<[slot := mkEntry (ref e) (set (buffer e) i v)]> (buffers σ))
               (nextSlot σ))
        | None => (Ok tt, σ)
        end
    | None => (Ok tt, σ)
    end.

(** [as.toAluExp(unravelAlu(as.shape, gidx))]; [as] may be missing. *)
Definition trackerExp (st : option ShapeTracker) (gidx : AluExp)
    : M (AluExp * AluExp) :=
  match st with
  | Some st => ret (toAluExp st (unravelAlu (shape st) gidx))
  | None =>
      throw (TypeError "Cannot read properties of undefined (reading 'toAluExp')")
  end.

(** [valid.evaluate({ gidx: i }) ? x32[exp.evaluate({ gidx: i })] : 0] *)
Definition operand (r : option Z) (exp valid : AluExp) (i : Z)
    : M (option number) :=
  let env : gmap string Z := {[ "gidx"%string := i ]} in
  let* v := lift (evaluate env valid) in
  if truthy v then
    let* idx := lift (evaluate env exp) in load r idx
  else ret (Some zero).

(** [a + b] and [a * b] when an operand may be [undefined]. *)
Definition arith (f : number -> number -> number) (x y : option number) : number :=
  match x, y with
  | Some x, Some y => f x y
  | _, _ => S754_nan
  end.

(** The body of the loop, for the index and validity pairs [as_] and [bs]
    of the two trackers. *)
Definition iteration {enc : NaNEncoding} (f : number -> number -> number)
    (a b c : option Z) (as_ bs : AluExp * AluExp) (i : Z) : M unit :=
  let* x := operand a (fst as_) (snd as_) i in
  let* y := operand b (fst bs) (snd bs) i in
  store c i (arith f x y).

(** The body shared by the [Add] and [Mul] entries of [cpuOps], which
    differ in the operator of the last line only. *)
Definition binaryOp {enc : NaNEncoding} (f : number -> number -> number)
    (inputs : list Z) (shapes : list ShapeTracker) (outputs : list Z)
    : M unit :=
  let a := inputs !! 0%nat in
  let b := inputs !! 1%nat in
  let c := outputs !! 0%nat in
  let* _ := newFloat32Array a in
  let* _ := newFloat32Array b in
  let* _ := newFloat32Array c in
  let* n := lengthOf c in
  let gidx := special Int32 "gidx" n in
  let* as_ := trackerExp (shapes !! 0%nat) gidx in
  let* bs := trackerExp (shapes !! 1%nat) gidx in
  forLoop (Z.to_nat n) 0 (iteration f a b c as_ bs).

Definition cpuOps {enc : NaNEncoding} (op : BackendOp)
    : list Z -> list ShapeTracker -> list Z -> M unit :=
  match op with
  | Add => binaryOp jsAdd
  | Mul => binaryOp jsMul
  end.

Definition executeOpSync {enc : NaNEncoding} (op : BackendOp)
    (inputs : list Z) (shapes : list ShapeTracker) (outputs : list Z)
    : M unit :=
  let* _ := mapM getBuffer inputs in
  let* _ := mapM getBuffer outputs in
  cpuOps op inputs shapes outputs.

(** *** The asynchronous forms

    An [async] method runs its body at the call and returns a promise that
    is already settled: fulfilled with the returned value, or rejected with
    the thrown exception. *)
Inductive Promise (A : Type) : Type :=
| Fulfilled (a : A)
| Rejected (e : exn).

Arguments Fulfilled {A} a.
Arguments Rejected {A} e.

Definition async {A : Type} (body : M A) : M (Promise A) :=
  fun σ =>
    match body σ with
    | (Ok a, σ') => (Ok (Fulfilled a), σ')
    | (Throw e, σ') => (Ok (Rejected e), σ')
    end.

Definition read (slot : Slot) (start count : option Z) : M (Promise ArrayBuffer) :=
  async (readSync slot start count).

Definition executeOp {enc : NaNEncoding} (op : BackendOp)
    (inputs : list Z) (shapes : list ShapeTracker) (outputs : list Z)
    : M (Promise unit) :=
  async (executeOpSync op inputs shapes outputs).

(** *** What an operation is to compute *)

(** The operator of an operation kind. *)
Definition operatorOf (op : BackendOp) : number -> number -> number :=
  match op with
  | Add => jsAdd
  | Mul => jsMul
  end.

(** The operand of output position [i] read from the input [buf]: the
    element at the index the tracker yields when the tracker says the
    position is valid, and 0 otherwise. *)
Definition operandValue (buf : ArrayBuffer) (exp valid : AluExp) (i : Z)
    : result (option number) :=
  let env : gmap string Z := {[ "gidx"%string := i ]} in
  match evaluate env valid with
  | Ok v =>
      if truthy v then
        match evaluate env exp with
        | Ok idx => Ok (get buf idx)
        | Throw e => Throw e
        end
      else Ok (Some zero)
  | Throw e => Throw e
  end.

(** The index and validity pair of a tracker for an output of [n] elements. *)
Definition expOf (st : ShapeTracker) (n : Z) : AluExp * AluExp :=
  toAluExp st (unravelAlu (shape st) (special Int32 "gidx" n)).

(** The backend when the loop of an operation reaches position [i]. *)
Definition stateAt {enc : NaNEncoding} (op : BackendOp) (sa sb sc : Z)
    (as_ bs : ShapeTracker) (n i : Z) (σ : CPUBackend) : CPUBackend :=
  snd (forLoop (Z.to_nat i) 0
         (iteration (operatorOf op) (Some sa) (Some sb) (Some sc)
            (expOf as_ n) (expOf bs n)) σ).

(** The end-to-end scenario: two buffers of four elements, identity trackers
    over shape [4], one [Add], and the output read back. *)
Definition endToEnd {enc : NaNEncoding} : M ArrayBuffer :=
  let* a := malloc 16 (Some (ofList [1; 2; 3; 4])) in
  let* b := malloc 16 (Some (ofList [10; 20; 30; 40])) in
  let* c := malloc 16 None in
  let* _ := executeOpSync Add [a; b] [fromShape [4]; fromShape [4]] [c] in
  readSync c None None.

(** The backend of the scenario once its three buffers are allocated. *)
Definition threeBuffers : CPUBackend :=
  snd ((let* a := malloc 16 (Some (ofList [1; 2; 3; 4])) in
        let* b := malloc 16 (Some (ofList [10; 20; 30; 40])) in
        malloc 16 None) new).

(** *** Calls and traces *)

(** [sameRefs σ σ']: the same slots are live, with the same reference
    counts, and the next handle is the same. *)
Definition sameRefs (σ σ' : CPUBackend) : Prop :=
  nextSlot σ' = nextSlot σ
  /\ forall slot : Z, ref <$> buffers σ' !! slot = ref <$> buffers σ !! slot.

Definition keepsRefs {A : Type} (m : M A) : Prop :=
  forall σ r σ', m σ = (r, σ') -> sameRefs σ σ'.

(** A call of one of the methods of the backend. *)
Inductive Call : Type :=
| CallMalloc (size : Z) (initialData : option ArrayBuffer)
| CallIncRef (slot : Z)
| CallDecRef (slot : Z)
| CallReadSync (slot : Z) (start count : option Z)
| CallRead (slot : Z) (start count : option Z)
| CallExecuteOpSync (op : BackendOp)
    (inputs : list Z) (shapes : list ShapeTracker) (outputs : list Z)
| CallExecuteOp (op : BackendOp)
    (inputs : list Z) (shapes : list ShapeTracker) (outputs : list Z).

(** The handle a call returns, when it is a [malloc] that returns, and the
    backend after the call. *)
Definition call {enc : NaNEncoding} (c : Call) (σ : CPUBackend)
    : option Z * CPUBackend :=
  match c with
  | CallMalloc size initialData =>
      match malloc size initialData σ with
      | (Ok slot, σ') => (Some slot, σ')
      | (Throw _, σ') => (None, σ')
      end
  | CallIncRef slot => (None, snd (incRef slot σ))
  | CallDecRef slot => (None, snd (decRef slot σ))
  | CallReadSync slot start count => (None, snd (readSync slot start count σ))
  | CallRead slot start count => (None, snd (read slot start count σ))
  | CallExecuteOpSync op inputs shapes outputs =>
      (None, snd (executeOpSync op inputs shapes outputs σ))
  | CallExecuteOp op inputs shapes outputs =>
      (None, snd (executeOp op inputs shapes outputs σ))
  end.

(** A sequence of calls: the handles returned, in order, and the backend at
    the end. *)
Fixpoint run {enc : NaNEncoding} (calls : list Call) (σ : CPUBackend)
    : list Z * CPUBackend :=
  match calls with
  | [] => ([], σ)
  | c :: calls' =>
      let '(h, σ1) := call c σ in
      let '(hs, σ2) := run calls' σ1 in
      (option_list h ++ hs, σ2)
  end.

(** The invariant of the slot table: every live slot has a reference count
    of at least 1 and a handle that has been handed out. *)
Definition wellFormed (σ : CPUBackend) : Prop :=
  forall (slot : Z) (e : Entry),
    buffers σ !! slot = Some e -> 1 <= ref e /\ slot < nextSlot σ.

(** What one call guarantees, from a well-formed backend: the backend stays
    well-formed, a returned handle is the next one, and a handed-out handle
    that is not live stays so. *)
Definition callOk (σ : CPUBackend) (h : option Z) (σ' : CPUBackend) : Prop :=
  wellFormed σ'
  /\ nextSlot σ <= nextSlot σ'
  /\ (forall slot, h = Some slot -> slot = nextSlot σ /\ nextSlot σ' = slot + 1)
  /\ (forall slot, slot < nextSlot σ ->
        buffers σ !! slot = None -> buffers σ' !! slot = None).

End Cpu.

(** ** lax.ts: the convolution wrappers *)

Module Conv.
Import Js Lax.

(** [PaddingType]: a symbolic token or one literal pair per spatial
    dimension. *)
Inductive PaddingType : Type :=
| Token (name : string)
| Pads (pads : list (Z * Z)).

(** The parameters handed to the convolution primitive. *)
Record ConvParams : Type := mkConvParams {
  strides : list Z;
  padding : list (Z * Z);
  lhsDilation : option (list Z);
  rhsDilation : option (list Z)
}.

Section Wrappers.

(** The array class and the convolution primitive of frontend/ are not
    under src/: the wrappers are modelled over any array type with its
    [ndim] and [shape] and over any primitive. *)
Context {cm : CaseMapping} {Array : Type}.
Variable ndim : Array -> Z.
Variable shape : Array -> list Z.
Variable convPrimitive : Array -> Array -> ConvParams -> result Array.

(** [lhsDilation?.some((d) => d !== 1)] *)
Definition someNotOne (dilation : option (list Z)) : bool :=
  match dilation with
  | Some l => existsb (fun d => negb (d =? 1)) l
  | None => false
  end.

Definition convGeneralDilated (lhs rhs : Array) (windowStrides : list Z)
    (padding : PaddingType) (lhsDilation rhsDilation : option (list Z))
    : result Array :=
  if ndim lhs <? 2 then Throw (Error "lhs must have at least 2 dimensions")
  else if ndim rhs <? 2 then Throw (Error "rhs must have at least 2 dimensions")
  else
    let resolved :=
      match padding with
      | Token name =>
          if someNotOne lhsDilation then
            Throw (Error
              "String padding is not supported for transposed convolutions")
          else
            padtypeToPads (drop 2 (shape lhs)) (drop 2 (shape rhs)) windowStrides
              (match rhsDilation with
               | Some d => d
               | None => rep (Z.to_nat (ndim rhs - 2)) 1
               end)
              name
      | Pads pads => Ok pads
      end in
    match resolved with
    | Ok pads =>
        convPrimitive lhs rhs
          (mkConvParams windowStrides pads lhsDilation rhsDilation)
    | Throw e => Throw e
    end.

(** The two convenience wrappers. *)
Definition convWithGeneralPadding (lhs rhs : Array) (windowStrides : list Z)
    (padding : PaddingType) (lhsDilation rhsDilation : option (list Z))
    : result Array :=
  convGeneralDilated lhs rhs windowStrides padding lhsDilation rhsDilation.


End Wrappers.

(** The smallest instance: an array that is its shape, and a primitive that
    returns the pads it is given, flattened. *)
Definition ndimOf (a : list Z) : Z := Z.of_nat (length a).
Definition shapeOf (a : list Z) : list Z := a.
Definition echo (lhs rhs : list Z) (params : ConvParams) : result (list Z) :=
  Ok (flat_map (fun p => [fst p; snd p]) (padding params)).

End Conv.

(** ** Sequences of calls and what a call may write *)

Module CpuCalls.
Import Js F32 Cpu.

(** The same method called [n] times in a row. *)
Fixpoint times (n : nat) (m : M unit) : M unit :=
  match n with
  | O => ret tt
  | S n' => let* _ := m in times n' m
  end.

(** [keeps R m]: whatever [m] returns or throws, the backends before and
    after it are related by [R]. *)
Definition keeps {A : Type} (R : CPUBackend -> CPUBackend -> Prop) (m : M A)
    : Prop :=
  forall σ r σ', m σ = (r, σ') -> R σ σ'.

(** [writesOnly c σ σ']: between [σ] and [σ'] nothing but the bytes of the
    buffer behind [c] has changed, and that buffer has kept its length. *)
Definition writesOnly (c : option Z) (σ σ' : CPUBackend) : Prop :=
  nextSlot σ' = nextSlot σ
  /\ (forall slot : Z, Some slot <> c -> buffers σ' !! slot = buffers σ !! slot)
  /\ (forall (slot : Z) (e : Entry),
        buffers σ !! slot = Some e ->
        exists e',
          buffers σ' !! slot = Some e'
          /\ ref e' = ref e /\ length (buffer e') = length (buffer e))
  /\ (forall slot : Z,
        buffers σ !! slot = None -> buffers σ' !! slot = None).

(** The first slot of a list that is not live, if there is one. *)
Fixpoint firstStale (σ : CPUBackend) (slots : list Z) : option Z :=
  match slots with
  | [] => None
  | slot :: slots' =>
      match buffers σ !! slot with
      | Some _ => firstStale σ slots'
      | None => Some slot
      end
  end.

(** The first position of [ArrayBuffer.prototype.slice]. *)
Definition clamp (len x : Z) : Z :=
  if x <? 0 then Z.max (len + x) 0 else Z.min x len.

End CpuCalls.

(** * Properties *)

Section PaddingPolicy.
Import Js Lax.

Lemma ceil_div_spec (a b o : Z) :
  0 < b -> (o - 1) * b < a <= o * b -> ceil_div a b = o.
Proof.
  intros Hb [Hlo Hhi]. unfold ceil_div.
  assert (H : (- a) / b = - o); [| lia].
  symmetry. apply (Z.div_unique_pos (- a) b (- o) (o * b - a)); lia.
Qed.

Lemma toInt32_small (x : Z) : - 2 ^ 31 <= x < 2 ^ 31 -> toInt32 x = x.
Proof.
  intros H. unfold toInt32. rewrite Z.mod_small; lia.
Qed.

Lemma sar_1_small (x : Z) : 0 <= x < 2 ^ 31 -> sar x 1 = x / 2.
Proof.
  intros H. unfold sar. rewrite toInt32_small by lia.
  change (1 mod 32) with 1. rewrite Z.shiftr_div_pow2 by lia. reflexivity.
Qed.

Lemma zipn_lookup (os ss ks ds is_ : list Z) (n : nat) (o s k d i : Z) :
  os !! n = Some o -> ss !! n = Some s -> ks !! n = Some k ->
  ds !! n = Some d -> is_ !! n = Some i ->
  zipn os ss ks ds is_ !! n = Some (o, s, k, d, i).
Proof.
  revert os ss ks ds is_.
  induction n as [|n IH]; intros [|o' os] [|s' ss] [|k' ks] [|d' ds] [|i' is_];
    simpl; try discriminate.
  - congruence.
  - apply IH.
Qed.



Lemma outShape_lookup (inShape strides : list Z) (n : nat) (i s : Z) :
  inShape !! n = Some i -> strides !! n = Some s ->
  outShape inShape strides !! n = Some (ceil_div i s).
Proof.
  intros Hi Hs. unfold outShape. rewrite list_lookup_imap, Hi. simpl.
  rewrite (nth_lookup_Some _ _ _ _ Hs). reflexivity.
Qed.

Lemma padSizes_lookup (inShape filterShape strides dilation : list Z)
    (n : nat) (i s k d : Z) :
  inShape !! n = Some i -> strides !! n = Some s ->
  filterShape !! n = Some k -> dilation !! n = Some d ->
  padSizes inShape filterShape strides dilation !! n
    = Some (Z.max 0 ((ceil_div i s - 1) * s + 1 + (k - 1) * d - i)).
Proof.
  intros Hi Hs Hk Hd. unfold padSizes.
  rewrite list_lookup_fmap.
  rewrite (zipn_lookup _ _ _ _ _ n (ceil_div i s) s k d i);
    auto using outShape_lookup.
Qed.


Lemma padSizes_nonneg (inShape filterShape strides dilation : list Z)
    (n : nat) (p : Z) :
  padSizes inShape filterShape strides dilation !! n = Some p -> 0 <= p.
Proof.
  unfold padSizes. rewrite list_lookup_fmap.
  destruct (zipn _ _ _ _ _ !! n) as [[[[[o s] k] d] i]|] eqn:E;
    simpl; [|discriminate].
  intros [= <-]. lia.
Qed.

(** The three tokens are ASCII and upper case: every engine leaves them as
    they are. *)
Lemma toUpperCase_upper {cm : CaseMapping} (s : string) :
  isAscii s = true -> asciiUpper s = s -> toUpperCase s = s.
Proof. intros Ha Hu. rewrite toUpperCase_ascii by exact Ha. exact Hu. Qed.


Lemma padtypeToPads_SAME {cm : CaseMapping}
    (inShape filterShape strides dilation : list Z) :
  padtypeToPads inShape filterShape strides dilation "SAME"
    = Ok (splitSame <$> padSizes inShape filterShape strides dilation).
Proof.
  unfold padtypeToPads. rewrite (toUpperCase_upper "SAME") by reflexivity.
  reflexivity.
Qed.

Lemma padtypeToPads_SAME_LOWER {cm : CaseMapping}
    (inShape filterShape strides dilation : list Z) :
  padtypeToPads inShape filterShape strides dilation "SAME_LOWER"
    = Ok (splitSameLower <$> padSizes inShape filterShape strides dilation).
Proof.
  unfold padtypeToPads. rewrite (toUpperCase_upper "SAME_LOWER") by reflexivity.
  reflexivity.
Qed.



(** Below 2^31 the shift is the halving it is meant to be: SAME gives
    (floor(p/2), ceil(p/2)) and SAME_LOWER gives (ceil(p/2), floor(p/2)); the
    two halves are equal when p is even. *)
Lemma padtypeToPads_split {cm : CaseMapping}
    (inShape filterShape strides dilation : list Z) (n : nat) (p : Z) :
  padSizes inShape filterShape strides dilation !! n = Some p ->
  p < 2 ^ 31 ->
  (exists pads,
     padtypeToPads inShape filterShape strides dilation "SAME" = Ok pads
     /\ pads !! n = Some (p / 2, (p + 1) / 2))
  /\ (exists pads,
     padtypeToPads inShape filterShape strides dilation "SAME_LOWER" = Ok pads
     /\ pads !! n = Some ((p + 1) / 2, p / 2))
  /\ (p mod 2 = 0 -> (p + 1) / 2 = p / 2)
  /\ (p mod 2 = 1 -> (p + 1) / 2 = p / 2 + 1).
Proof.
  intros Hp Hlt.
  pose proof (padSizes_nonneg _ _ _ _ _ _ Hp) as H0.
  assert (Hsar : sar p 1 = p / 2) by (apply sar_1_small; lia).
  assert (Hceil : p - p / 2 = (p + 1) / 2).
  { pose proof (Z.div_mod p 2 ltac:(lia)). pose proof (Z.mod_pos_bound p 2 ltac:(lia)).
    pose proof (Z.div_mod (p + 1) 2 ltac:(lia)).
    pose proof (Z.mod_pos_bound (p + 1) 2 ltac:(lia)). lia. }
  repeat split.
  - rewrite padtypeToPads_SAME. eexists. split; [reflexivity|].
    rewrite list_lookup_fmap, Hp. simpl. unfold splitSame.
    rewrite Hsar, Hceil. reflexivity.
  - rewrite padtypeToPads_SAME_LOWER. eexists. split; [reflexivity|].
    rewrite list_lookup_fmap, Hp. simpl. unfold splitSameLower.
    rewrite Hsar, Hceil. reflexivity.
  - intros Heven. pose proof (Z.div_mod p 2 ltac:(lia)). lia.
  - intros Hodd. pose proof (Z.div_mod p 2 ltac:(lia)). lia.
Qed.

(** C5.  The split is not the floor and ceiling split for every total: at a
    total padding of 2^31 (input 1, window 2, stride 1, dilation 2^31) the
    32-bit shift wraps, and SAME pads -2^30 before and 3 * 2^30 after, where
    the floor half is 2^30.  SAME_LOWER pads the mirror of it. *)
Theorem padding_split_wraps {cm : CaseMapping} :
  padSizes [1] [2] [1] [2147483648] = [2147483648]
  /\ padtypeToPads [1] [2] [1] [2147483648] "SAME"
     = Ok [(-1073741824, 3221225472)]
  /\ padtypeToPads [1] [2] [1] [2147483648] "SAME_LOWER"
     = Ok [(3221225472, -1073741824)]
  /\ 2147483648 / 2 = 1073741824.
Proof.
  rewrite padtypeToPads_SAME, padtypeToPads_SAME_LOWER.
  repeat split.
Qed.

(** C6, as stated, at an odd total (input 4, window 2, stride 1, total 1):
    SAME_LOWER gives the larger half to the before side, not the after
    side. *)
Lemma same_lower_larger_half_before :
  exists before after,
    padtypeToPads (cm := asciiCase) [4] [2] [1] [1] "SAME_LOWER"
      = Ok [(before, after)]
    /\ after < before.
Proof. exists 1, 0. split; [reflexivity | lia]. Qed.

(** C6, amended.  For a total padding p below 2^31, SAME splits p into a
    floor half before and a ceiling half after, and SAME_LOWER is its
    mirror: the before side gets the larger half of an odd total. *)
Theorem padtypeToPads_mirror {cm : CaseMapping}
    (inShape filterShape strides dilation : list Z) (n : nat) (p : Z) :
  padSizes inShape filterShape strides dilation !! n = Some p ->
  p < 2 ^ 31 ->
  exists same lower before after,
    padtypeToPads inShape filterShape strides dilation "SAME" = Ok same
    /\ padtypeToPads inShape filterShape strides dilation "SAME_LOWER" = Ok lower
    /\ same !! n = Some (before, after)
    /\ lower !! n = Some (after, before)
    /\ before + after = p
    /\ before <= after <= before + 1.
Proof.
  intros Hp Hlt.
  pose proof (padSizes_nonneg _ _ _ _ _ _ Hp) as H0.
  assert (Hsar : sar p 1 = p / 2) by (apply sar_1_small; lia).
  rewrite padtypeToPads_SAME, padtypeToPads_SAME_LOWER.
  exists (splitSame <$> padSizes inShape filterShape strides dilation),
    (splitSameLower <$> padSizes inShape filterShape strides dilation),
    (p / 2), (p - p / 2).
  rewrite !list_lookup_fmap, Hp. simpl. unfold splitSame, splitSameLower.
  rewrite Hsar.
  pose proof (Z.div_mod p 2 ltac:(lia)). pose proof (Z.mod_pos_bound p 2 ltac:(lia)).
  repeat split; lia.
Qed.

Lemma padtypeToPads_mirror_witness :
  exists same lower before after,
    padtypeToPads (cm := asciiCase) [5] [4] [1] [1] "SAME" = Ok same
    /\ padtypeToPads (cm := asciiCase) [5] [4] [1] [1] "SAME_LOWER" = Ok lower
    /\ same !! 0%nat = Some (before, after)
    /\ lower !! 0%nat = Some (after, before)
    /\ before + after = 3
    /\ before <= after <= before + 1.
Proof.
  apply (padtypeToPads_mirror (cm := asciiCase) [5] [4] [1] [1] 0 3);
    [reflexivity | lia].
Defined.

(** A token is matched whatever its case: on every engine the token "same"
    is the token SAME. *)
Lemma same_in_lower_case {cm : CaseMapping}
    (inShape filterShape strides dilation : list Z) :
  padtypeToPads inShape filterShape strides dilation "same"
    = padtypeToPads inShape filterShape strides dilation "SAME".
Proof.
  unfold padtypeToPads.
  rewrite (toUpperCase_ascii "same"), (toUpperCase_ascii "SAME") by reflexivity.
  reflexivity.
Qed.

(** C7, as stated, at the token "same": it is none of VALID, SAME and
    SAME_LOWER, and the call returns pads. *)
Lemma lower_case_token_accepted :
  "same"%string <> "VALID"%string /\ "same"%string <> "SAME"%string
  /\ "same"%string <> "SAME_LOWER"%string
  /\ padtypeToPads (cm := asciiCase) [4] [3] [1] [1] "same" = Ok [(1, 1)].
Proof.
  do 3 (split; [discriminate|]).
  rewrite same_in_lower_case, padtypeToPads_SAME. reflexivity.
Qed.

(** C7, amended.  A token whose upper-case form, as the engine gives it, is
    none of VALID, SAME and SAME_LOWER makes the call itself throw the
    unknown-padding error, which names the upper-case form. *)
Theorem padtypeToPads_unknown {cm : CaseMapping}
    (inShape filterShape strides dilation : list Z) (padding : string) :
  toUpperCase padding <> "VALID"%string ->
  toUpperCase padding <> "SAME"%string ->
  toUpperCase padding <> "SAME_LOWER"%string ->
  padtypeToPads inShape filterShape strides dilation padding
    = Throw (Error ("Unknown padding type: " ++ toUpperCase padding)).
Proof.
  intros H1 H2 H3. unfold padtypeToPads.
  apply String.eqb_neq in H1, H2, H3. rewrite H1, H2, H3. reflexivity.
Qed.

Lemma padtypeToPads_unknown_witness :
  padtypeToPads (cm := asciiCase) [4] [3] [1] [1] "full"
    = Throw (Error "Unknown padding type: FULL").
Proof.
  apply (padtypeToPads_unknown (cm := asciiCase) [4] [3] [1] [1] "full");
    discriminate.
Defined.

End PaddingPolicy.

Section Slots.
Import Js F32 Cpu.

Implicit Types (σ : CPUBackend) (slot : Z) (e : Entry).

Lemma byteLength_repeat (n : Z) : 0 <= n -> byteLength (repeat x00 (Z.to_nat n)) = n.
Proof. intros H. unfold byteLength. rewrite repeat_length. lia. Qed.

Lemma uint8Set_full (buffer data : ArrayBuffer) :
  length data = length buffer -> uint8Set buffer data = data.
Proof.
  intros H. unfold uint8Set. rewrite drop_ge by lia. apply app_nil_r.
Qed.

(** What a returning [malloc] has done. *)
Lemma malloc_returns_inv σ (size : Z) (data : option ArrayBuffer) slot σ1 :
  malloc size data σ = (Ok slot, σ1) ->
  exists buf,
    slot = nextSlot σ
    /\ σ1 = mkBackend (<[slot := mkEntry 1 buf]> (buffers σ)) (nextSlot σ + 1)
    /\ byteLength buf = size
    /\ (forall d, data = Some d -> buf = d).
Proof.
  unfold malloc. destruct (size <? 0) eqn:Hneg; [discriminate|].
  apply Z.ltb_ge in Hneg.
  destruct data as [d|].
  - destruct (byteLength d =? size) eqn:Hlen; simpl; [|discriminate].
    apply Z.eqb_eq in Hlen. intros [= <- <-].
    exists d. rewrite uint8Set_full.
    + repeat split; auto. intros d' [= ->]. reflexivity.
    + rewrite repeat_length. unfold byteLength in Hlen. lia.
  - intros [= <- <-]. exists (repeat x00 (Z.to_nat size)).
    repeat split; auto using byteLength_repeat. discriminate.
Qed.

Lemma malloc_data σ (data : ArrayBuffer) :
  malloc (byteLength data) (Some data) σ
    = (Ok (nextSlot σ),
       mkBackend (<[nextSlot σ := mkEntry 1 data]> (buffers σ)) (nextSlot σ + 1)).
Proof.
  unfold malloc. destruct (byteLength data <? 0) eqn:Hneg.
  { apply Z.ltb_lt in Hneg. unfold byteLength in Hneg. lia. }
  rewrite Z.eqb_refl. simpl. rewrite uint8Set_full; [reflexivity|].
  rewrite repeat_length. unfold byteLength. lia.
Qed.

Lemma incRef_live σ slot e :
  buffers σ !! slot = Some e ->
  incRef slot σ
    = (Ok tt, mkBackend (<[slot := mkEntry (ref e + 1) (buffer e)]> (buffers σ))
                        (nextSlot σ)).
Proof. intros H. unfold incRef. rewrite H. reflexivity. Qed.

Lemma decRef_last σ slot e :
  buffers σ !! slot = Some e -> ref e = 1 ->
  decRef slot σ = (Ok tt, mkBackend (delete slot (buffers σ)) (nextSlot σ)).
Proof. intros H Hr. unfold decRef. rewrite H. simpl. rewrite Hr. reflexivity. Qed.

Lemma decRef_shared σ slot e :
  buffers σ !! slot = Some e -> ref e <> 1 ->
  decRef slot σ
    = (Ok tt, mkBackend (<[slot := mkEntry (ref e - 1) (buffer e)]> (buffers σ))
                        (nextSlot σ)).
Proof.
  intros H Hr. unfold decRef. rewrite H. simpl.
  destruct (ref e - 1 =? 0) eqn:E; [|reflexivity].
  apply Z.eqb_eq in E. lia.
Qed.

Lemma readSync_live σ slot e (start count : option Z) :
  buffers σ !! slot = Some e ->
  exists bytes, readSync slot start count σ = (Ok bytes, σ).
Proof.
  intros H. unfold readSync, bind, getBuffer, ret. rewrite H. eauto.
Qed.

Lemma slice_whole (buf : ArrayBuffer) : slice buf 0 (byteLength buf) = buf.
Proof.
  unfold slice. pose proof (Nat2Z.is_nonneg (length buf)) as Hl.
  fold (byteLength buf) in Hl. change (0 <? 0) with false. cbv iota.
  destruct (byteLength buf <? 0) eqn:E; [apply Z.ltb_lt in E; lia|].
  rewrite (Z.min_l 0) by lia. rewrite Z.min_id, Z.sub_0_r. simpl.
  rewrite drop_0. apply take_ge. unfold byteLength. lia.
Qed.

Lemma readSync_whole σ slot e :
  buffers σ !! slot = Some e ->
  readSync slot None None σ = (Ok (buffer e), σ).
Proof.
  intros H. unfold readSync, bind, getBuffer, ret. rewrite H.
  rewrite Z.sub_0_r, Z.add_0_l, slice_whole. reflexivity.
Qed.

(** Every call on a slot that is not live throws [SlotError] and changes
    nothing. *)
Lemma stale_slot σ slot :
  buffers σ !! slot = None ->
  incRef slot σ = (Throw (SlotError slot), σ)
  /\ decRef slot σ = (Throw (SlotError slot), σ)
  /\ forall start count,
       readSync slot start count σ = (Throw (SlotError slot), σ).
Proof.
  intros H. unfold incRef, decRef, readSync, bind, getBuffer.
  rewrite H. auto.
Qed.

(** C3.  A slot returned by [malloc] has reference count 1.  One [decRef]
    frees it, and then [readSync], [incRef] and [decRef] on it throw
    [SlotError].  After two [incRef] calls it takes three [decRef] calls to
    free it: [readSync] succeeds after the first and after the second, and
    throws [SlotError] after the third. *)
Theorem refcount_lifecycle σ (size : Z) (data : option ArrayBuffer) slot σ1 :
  malloc size data σ = (Ok slot, σ1) ->
  ref <$> buffers σ1 !! slot = Some 1
  /\ (exists σ2,
        decRef slot σ1 = (Ok tt, σ2)
        /\ buffers σ2 !! slot = None
        /\ incRef slot σ2 = (Throw (SlotError slot), σ2)
        /\ decRef slot σ2 = (Throw (SlotError slot), σ2)
        /\ forall start count,
             readSync slot start count σ2 = (Throw (SlotError slot), σ2))
  /\ (exists σa σb σc σd σe,
        incRef slot σ1 = (Ok tt, σa)
        /\ incRef slot σa = (Ok tt, σb)
        /\ decRef slot σb = (Ok tt, σc)
        /\ decRef slot σc = (Ok tt, σd)
        /\ decRef slot σd = (Ok tt, σe)
        /\ (forall start count,
              exists bytes, readSync slot start count σc = (Ok bytes, σc))
        /\ (forall start count,
              exists bytes, readSync slot start count σd = (Ok bytes, σd))
        /\ buffers σe !! slot = None
        /\ forall start count,
             readSync slot start count σe = (Throw (SlotError slot), σe)).
Proof.
  intros Hm. apply malloc_returns_inv in Hm as (buf & -> & -> & _ & _).
  set (s := nextSlot σ). set (n := nextSlot σ + 1).
  split; [|split].
  - simpl. rewrite lookup_insert_eq. reflexivity.
  - eexists. split.
    { eapply decRef_last; [apply lookup_insert_eq | reflexivity]. }
    assert (Hgone : delete s (<[s := mkEntry 1 buf]> (buffers σ)) !! s = None)
      by apply lookup_delete_eq.
    split; [exact Hgone|].
    destruct (stale_slot (mkBackend (delete s (<[s := mkEntry 1 buf]> (buffers σ))) n)
                s Hgone) as (Hi & Hd & Hr).
    auto.
  - do 5 eexists.
    split. { eapply incRef_live. apply lookup_insert_eq. }
    split. { eapply incRef_live. apply lookup_insert_eq. }
    split. { eapply decRef_shared; [apply lookup_insert_eq | simpl; lia]. }
    split. { eapply decRef_shared; [apply lookup_insert_eq | simpl; lia]. }
    split. { eapply decRef_last; [apply lookup_insert_eq | simpl; lia]. }
    split. { intros. eapply readSync_live. apply lookup_insert_eq. }
    split. { intros. eapply readSync_live. apply lookup_insert_eq. }
    split. { apply lookup_delete_eq. }
    intros start count. eapply stale_slot. apply lookup_delete_eq.
Qed.

Lemma refcount_lifecycle_witness :
  ref <$> buffers (snd (malloc 8 None new)) !! 1 = Some 1.
Proof.
  refine (proj1 (refcount_lifecycle new 8 None 1 (snd (malloc 8 None new)) _)).
  reflexivity.
Defined.

(** C9, as stated, at the size -1 with empty initial data: the byte length
    0 differs from the size, and the call throws the [RangeError] of
    [new ArrayBuffer(-1)], not the size-mismatch error. *)
Lemma malloc_negative_size :
  byteLength [] <> -1
  /\ (exists msg,
        malloc (-1) (Some []) new = (Throw (RangeError msg), new))
  /\ malloc (-1) (Some []) new
     <> (Throw (Error "initialData size does not match buffer size"), new).
Proof.
  split; [discriminate|]. split; [eexists; reflexivity | discriminate].
Qed.

(** C9, amended.  For a size that is a byte count (not negative), [malloc]
    with initial data whose byte length differs from the size throws the
    size-mismatch error instead of returning a slot, and allocates nothing.
    With initial data of the requested length it returns a slot whose
    stored bytes are the initial data.  A negative size makes the call throw
    a [RangeError], whatever the initial data. *)
Theorem malloc_initialData σ (size : Z) (data : ArrayBuffer) :
  (0 <= size -> byteLength data <> size ->
     malloc size (Some data) σ
       = (Throw (Error "initialData size does not match buffer size"), σ))
  /\ (byteLength data = size ->
     exists slot σ',
       malloc size (Some data) σ = (Ok slot, σ')
       /\ buffers σ' !! slot = Some (mkEntry 1 data)
       /\ readSync slot None None σ' = (Ok data, σ'))
  /\ (size < 0 ->
     exists msg, malloc size (Some data) σ = (Throw (RangeError msg), σ)).
Proof.
  split; [|split].
  - intros Hsize Hne. unfold malloc.
    destruct (size <? 0) eqn:Hneg; [apply Z.ltb_lt in Hneg; lia|].
    apply Z.eqb_neq in Hne. rewrite Hne. reflexivity.
  - intros <-. do 2 eexists. split; [apply malloc_data|].
    split; [apply lookup_insert_eq|].
    apply (readSync_whole _ _ (mkEntry 1 data)). apply lookup_insert_eq.
  - intros Hneg. unfold malloc. apply Z.ltb_lt in Hneg. rewrite Hneg.
    eexists. reflexivity.
Qed.

Lemma malloc_initialData_witness :
  malloc 4 (Some [x01; x02; x03]) new
    = (Throw (Error "initialData size does not match buffer size"), new).
Proof.
  refine (proj1 (malloc_initialData new 4 [x01; x02; x03]) _ _);
    [lia | discriminate].
Defined.

End Slots.

(** ** Calls that leave the slots and their reference counts alone *)

Section Frame.
Import Js Alu Shape F32 Cpu.

Implicit Types (σ : CPUBackend).

Lemma sameRefs_refl σ : sameRefs σ σ.
Proof. split; reflexivity. Qed.

Lemma sameRefs_trans σ1 σ2 σ3 :
  sameRefs σ1 σ2 -> sameRefs σ2 σ3 -> sameRefs σ1 σ3.
Proof.
  intros [H1 H2] [H3 H4]. split; [congruence|].
  intros slot. rewrite H4. apply H2.
Qed.

Lemma keepsRefs_ret {A : Type} (a : A) : keepsRefs (ret a).
Proof. intros σ r σ' [= _ <-]. apply sameRefs_refl. Qed.

Lemma keepsRefs_throw {A : Type} (e : exn) : keepsRefs (@throw A e).
Proof. intros σ r σ' [= _ <-]. apply sameRefs_refl. Qed.

Lemma keepsRefs_lift {A : Type} (x : result A) : keepsRefs (lift x).
Proof. intros σ r σ' [= _ <-]. apply sameRefs_refl. Qed.

Lemma keepsRefs_bind {A B : Type} (m : M A) (k : A -> M B) :
  keepsRefs m -> (forall a, keepsRefs (k a)) -> keepsRefs (bind m k).
Proof.
  intros Hm Hk σ r σ'. unfold bind.
  destruct (m σ) as [[a|e] σ1] eqn:E.
  - intros H. eapply sameRefs_trans; [eapply Hm, E | eapply Hk, H].
  - intros [= _ <-]. eapply Hm, E.
Qed.

Lemma keepsRefs_mapM {A B : Type} (f : A -> M B) (l : list A) :
  (forall a, keepsRefs (f a)) -> keepsRefs (mapM f l).
Proof.
  intros Hf. induction l as [|x l IH]; simpl.
  - apply keepsRefs_ret.
  - apply keepsRefs_bind; [apply Hf|]. intros y.
    apply keepsRefs_bind; [apply IH|]. intros ys. apply keepsRefs_ret.
Qed.

Lemma keepsRefs_forLoop (count : nat) (i : Z) (body : Z -> M unit) :
  (forall j, keepsRefs (body j)) -> keepsRefs (forLoop count i body).
Proof.
  intros Hb. revert i. induction count as [|count IH]; intros i; simpl.
  - apply keepsRefs_ret.
  - apply keepsRefs_bind; [apply Hb|]. intros _. apply IH.
Qed.

Lemma keepsRefs_getBuffer (slot : Z) : keepsRefs (getBuffer slot).
Proof.
  intros σ r σ'. unfold getBuffer.
  destruct (buffers σ !! slot); intros [= _ <-]; apply sameRefs_refl.
Qed.

Lemma keepsRefs_newFloat32Array (r : option Z) : keepsRefs (newFloat32Array r).
Proof.
  intros σ x σ'. unfold newFloat32Array.
  destruct (bytesOf σ r) as [buf|]; [destruct (_ =? _)|];
    intros [= _ <-]; apply sameRefs_refl.
Qed.

Lemma keepsRefs_lengthOf (r : option Z) : keepsRefs (lengthOf r).
Proof. intros σ x σ' [= _ <-]. apply sameRefs_refl. Qed.

Lemma keepsRefs_load (r : option Z) (idx : Z) : keepsRefs (load r idx).
Proof. intros σ x σ' [= _ <-]. apply sameRefs_refl. Qed.

Lemma keepsRefs_store {enc : NaNEncoding} (r : option Z) (i : Z) (v : number) : keepsRefs (store r i v).
Proof.
  intros σ x σ'. unfold store.
  destruct r as [slot|]; [|intros [= _ <-]; apply sameRefs_refl].
  destruct (buffers σ !! slot) as [e|] eqn:E;
    intros [= _ <-]; [|apply sameRefs_refl].
  split; [reflexivity|]. intros slot'. simpl.
  destruct (decide (slot = slot')) as [<-|Hne].
  - rewrite lookup_insert_eq, E. reflexivity.
  - rewrite lookup_insert_ne by assumption. reflexivity.
Qed.

Lemma keepsRefs_trackerExp (st : option ShapeTracker) (gidx : AluExp) :
  keepsRefs (trackerExp st gidx).
Proof.
  destruct st; simpl; [apply keepsRefs_ret | apply keepsRefs_throw].
Qed.

Lemma keepsRefs_operand (r : option Z) (exp valid : AluExp) (i : Z) :
  keepsRefs (operand r exp valid i).
Proof.
  unfold operand. apply keepsRefs_bind; [apply keepsRefs_lift|].
  intros v. destruct (truthy v); [|apply keepsRefs_ret].
  apply keepsRefs_bind; [apply keepsRefs_lift|]. intros idx.
  apply keepsRefs_load.
Qed.

Lemma keepsRefs_binaryOp {enc : NaNEncoding} (f : number -> number -> number)
    (inputs : list Z) (shapes : list ShapeTracker) (outputs : list Z) :
  keepsRefs (binaryOp f inputs shapes outputs).
Proof.
  unfold binaryOp.
  do 3 (apply keepsRefs_bind; [apply keepsRefs_newFloat32Array|]; intros _).
  apply keepsRefs_bind; [apply keepsRefs_lengthOf|]. intros n.
  apply keepsRefs_bind; [apply keepsRefs_trackerExp|]. intros as_.
  apply keepsRefs_bind; [apply keepsRefs_trackerExp|]. intros bs.
  apply keepsRefs_forLoop. intros j. unfold iteration.
  apply keepsRefs_bind; [apply keepsRefs_operand|]. intros x.
  apply keepsRefs_bind; [apply keepsRefs_operand|]. intros y.
  apply keepsRefs_store.
Qed.

Lemma keepsRefs_executeOpSync {enc : NaNEncoding} (op : BackendOp)
    (inputs : list Z) (shapes : list ShapeTracker) (outputs : list Z) :
  keepsRefs (executeOpSync op inputs shapes outputs).
Proof.
  unfold executeOpSync.
  do 2 (apply keepsRefs_bind;
        [apply keepsRefs_mapM, keepsRefs_getBuffer|]; intros _).
  destruct op; apply keepsRefs_binaryOp.
Qed.

Lemma keepsRefs_readSync (slot : Z) (start count : option Z) :
  keepsRefs (readSync slot start count).
Proof.
  unfold readSync. apply keepsRefs_bind; [apply keepsRefs_getBuffer|].
  intros buf. apply keepsRefs_ret.
Qed.

Lemma keepsRefs_async {A : Type} (m : M A) : keepsRefs m -> keepsRefs (async m).
Proof.
  intros Hm σ r σ'. unfold async.
  destruct (m σ) as [[a|e] σ1] eqn:E; intros [= _ <-]; eapply Hm, E.
Qed.

End Frame.

(** ** Handles are never reused *)

Section Handles.
Import Js Alu Shape F32 Cpu.

Implicit Types (σ : CPUBackend) (slot : Z).

Lemma wellFormed_new : wellFormed new.
Proof. intros slot e. simpl. rewrite lookup_empty. discriminate. Qed.

Lemma wellFormed_insert σ slot (e : Entry) :
  wellFormed σ -> 1 <= ref e -> slot < nextSlot σ ->
  wellFormed (mkBackend (<[slot := e]> (buffers σ)) (nextSlot σ)).
Proof.
  intros Hwf Hr Hs slot' e'. simpl.
  destruct (decide (slot = slot')) as [<-|Hne].
  - rewrite lookup_insert_eq. intros [= <-]. auto.
  - rewrite lookup_insert_ne by assumption. apply Hwf.
Qed.

Lemma sameRefs_callOk σ σ' : wellFormed σ -> sameRefs σ σ' -> callOk σ None σ'.
Proof.
  intros Hwf [Hn Hr]. split; [|split; [|split]].
  - intros slot e H. specialize (Hr slot). rewrite H in Hr. simpl in Hr.
    destruct (buffers σ !! slot) as [e'|] eqn:E; [|discriminate].
    injection Hr as ->. rewrite Hn. apply (Hwf slot e' E).
  - lia.
  - discriminate.
  - intros slot _ Hdead. specialize (Hr slot). rewrite Hdead in Hr.
    destruct (buffers σ' !! slot); [discriminate | reflexivity].
Qed.

Lemma malloc_callOk {enc : NaNEncoding} σ (size : Z) (data : option ArrayBuffer) :
  wellFormed σ ->
  callOk σ (fst (call (CallMalloc size data) σ)) (snd (call (CallMalloc size data) σ)).
Proof.
  intros Hwf. simpl.
  destruct (malloc size data σ) as [[slot|err] σ'] eqn:E; simpl.
  - apply malloc_returns_inv in E as (buf & -> & -> & _ & _).
    split; [|split; [|split]]; simpl.
    + intros slot e. simpl.
      destruct (decide (nextSlot σ = slot)) as [<-|Hne].
      * rewrite lookup_insert_eq. intros [= <-]. simpl. lia.
      * rewrite lookup_insert_ne by assumption. intros H.
        pose proof (Hwf slot e H). lia.
    + lia.
    + intros slot [= <-]. auto.
    + intros slot Hlt Hdead. rewrite lookup_insert_ne by lia. exact Hdead.
  - assert (σ' = σ) as ->.
    { revert E. unfold malloc. destruct (size <? 0); [congruence|].
      destruct data as [d|]; [destruct (byteLength d =? size)|]; simpl; congruence. }
    apply sameRefs_callOk; [assumption | apply sameRefs_refl].
Qed.

Lemma incRef_callOk σ slot : wellFormed σ -> callOk σ None (snd (incRef slot σ)).
Proof.
  intros Hwf. unfold incRef.
  destruct (buffers σ !! slot) as [e|] eqn:E; simpl;
    [|apply sameRefs_callOk; auto using sameRefs_refl].
  destruct (Hwf slot e E) as [Hr Hs].
  split; [|split; [|split]]; simpl.
  - apply wellFormed_insert; simpl; auto; lia.
  - lia.
  - discriminate.
  - intros slot' _ Hdead. rewrite lookup_insert_ne by congruence. exact Hdead.
Qed.

Lemma decRef_callOk σ slot : wellFormed σ -> callOk σ None (snd (decRef slot σ)).
Proof.
  intros Hwf. unfold decRef.
  destruct (buffers σ !! slot) as [e|] eqn:E; simpl;
    [|apply sameRefs_callOk; auto using sameRefs_refl].
  destruct (Hwf slot e E) as [Hr Hs].
  destruct (ref e - 1 =? 0) eqn:Hz; simpl.
  - split; [|split; [|split]]; simpl.
    + intros slot' e'. simpl. intros H.
      apply lookup_delete_Some in H as [_ H]. apply (Hwf slot' e' H).
    + lia.
    + discriminate.
    + intros slot' _ Hdead. apply lookup_delete_None. auto.
  - apply Z.eqb_neq in Hz.
    split; [|split; [|split]]; simpl.
    + apply wellFormed_insert; simpl; auto; lia.
    + lia.
    + discriminate.
    + intros slot' _ Hdead. rewrite lookup_insert_ne by congruence. exact Hdead.
Qed.

Lemma keepsRefs_callOk {A : Type} (m : M A) σ :
  keepsRefs m -> wellFormed σ -> callOk σ None (snd (m σ)).
Proof.
  intros Hm Hwf. apply sameRefs_callOk; [assumption|].
  destruct (m σ) as [r σ'] eqn:E. simpl. eapply Hm, E.
Qed.

Lemma call_callOk {enc : NaNEncoding} (c : Call) σ :
  wellFormed σ -> callOk σ (fst (call c σ)) (snd (call c σ)).
Proof.
  intros Hwf. destruct c.
  - apply malloc_callOk, Hwf.
  - apply incRef_callOk, Hwf.
  - apply decRef_callOk, Hwf.
  - apply keepsRefs_callOk; [apply keepsRefs_readSync | assumption].
  - apply keepsRefs_callOk; [apply keepsRefs_async, keepsRefs_readSync | assumption].
  - apply keepsRefs_callOk; [apply keepsRefs_executeOpSync | assumption].
  - apply keepsRefs_callOk;
      [apply keepsRefs_async, keepsRefs_executeOpSync | assumption].
Qed.

(** What a sequence of calls guarantees: the handles it returns increase
    strictly and lie between the next handle before and the next handle
    after; a handed-out handle that is not live stays so. *)
Lemma run_handles {enc : NaNEncoding} (calls : list Call) σ :
  wellFormed σ ->
  wellFormed (snd (run calls σ))
  /\ nextSlot σ <= nextSlot (snd (run calls σ))
  /\ StronglySorted Z.lt (fst (run calls σ))
  /\ Forall (fun slot => nextSlot σ <= slot < nextSlot (snd (run calls σ)))
            (fst (run calls σ))
  /\ (forall slot, slot < nextSlot σ ->
        buffers σ !! slot = None ->
        buffers (snd (run calls σ)) !! slot = None).
Proof.
  revert σ. induction calls as [|c calls IH]; intros σ Hwf; simpl.
  - split; [assumption|]. split; [lia|].
    split; [constructor|]. split; [constructor|]. auto.
  - pose proof (call_callOk c σ Hwf) as (Hwf1 & Hle1 & Hh & Hdead1).
    destruct (call c σ) as [h σ1]. simpl in *.
    specialize (IH σ1 Hwf1) as (Hwf2 & Hle2 & Hsorted & Hrange & Hdead2).
    destruct (run calls σ1) as [hs σ2]. simpl in *.
    split; [assumption|]. split; [lia|].
    assert (Hrange' : Forall (fun slot => nextSlot σ <= slot < nextSlot σ2) hs).
    { eapply Forall_impl; [exact Hrange|]. simpl. intros; lia. }
    split; [|split].
    + destruct h as [slot|]; simpl; [|assumption].
      destruct (Hh slot eq_refl) as [-> Hn].
      constructor; [assumption|].
      eapply Forall_impl; [exact Hrange|]. simpl. intros; lia.
    + destruct h as [slot|]; simpl; [|assumption].
      destruct (Hh slot eq_refl) as [-> Hn].
      constructor; [lia | assumption].
    + intros slot Hlt Hdead. apply Hdead2; [lia|]. apply Hdead1; assumption.
Qed.

(** C10.  From a new backend, whatever the calls: the handles [malloc]
    returns increase strictly over the whole run; a handle returned earlier
    whose slot is no longer live is not live after any further calls; every
    live slot has a reference count of at least 1. *)
Theorem handles_never_reused {enc : NaNEncoding} (before after : list Call) :
  let '(handles1, σ1) := run before new in
  let '(handles2, σ2) := run after σ1 in
  StronglySorted Z.lt (handles1 ++ handles2)
  /\ (forall slot, In slot handles1 ->
        buffers σ1 !! slot = None -> buffers σ2 !! slot = None)
  /\ (forall slot e, buffers σ2 !! slot = Some e -> 1 <= ref e).
Proof.
  pose proof (run_handles before new wellFormed_new)
    as (Hwf1 & Hle1 & Hs1 & Hr1 & _).
  destruct (run before new) as [handles1 σ1]. simpl in *.
  pose proof (run_handles after σ1 Hwf1) as (Hwf2 & Hle2 & Hs2 & Hr2 & Hdead).
  destruct (run after σ1) as [handles2 σ2]. simpl in *.
  split; [|split].
  - clear Hdead Hwf1 Hwf2. induction Hs1 as [|slot hs Hs IH Hlt]; simpl.
    + exact Hs2.
    + apply Forall_cons in Hr1 as [Hslot Hr1].
      constructor; [apply IH, Hr1|].
      apply Forall_app. split; [exact Hlt|].
      eapply Forall_impl; [exact Hr2|]. simpl. intros; lia.
  - intros slot Hin Hgone. apply Hdead; [|exact Hgone].
    rewrite Forall_forall in Hr1. apply list_elem_of_In in Hin.
    apply Hr1 in Hin. lia.
  - intros slot e He. apply (Hwf2 slot e He).
Qed.

End Handles.

(** ** Expressions of a tracker mention the given indices only *)

Create HintDb closed.

Section Closed.
Import Js Alu Shape.

Variable X : list string.

Lemma closed_int (v : Z) : closed X (int v).
Proof. intros x Hx. simpl in Hx. inversion Hx. Qed.

Lemma closed_BinaryOp (kind : BinKind) (l r : AluExp) :
  closed X l -> closed X r -> closed X (BinaryOp kind l r).
Proof.
  intros Hl Hr x Hx. simpl in Hx. apply elem_of_app in Hx as [Hx|Hx]; auto.
Qed.

#[local] Hint Resolve closed_int closed_BinaryOp : closed.
#[local] Hint Unfold add mul idiv mod_ cmplt cmpge and_ : closed.

(** An expression evaluates when every name it mentions is bound. *)
Lemma evaluate_closed (bindings : gmap string Z) (e : AluExp) :
  (forall x, x ∈ X -> is_Some (bindings !! x)) ->
  closed X e -> exists v, evaluate bindings e = Ok v.
Proof.
  intros Hb. induction e as [dt v|dt name|dt name extent|kind l IHl r IHr|c IHc t IHt f IHf];
    intros Hc; simpl.
  - eauto.
  - destruct (Hb name) as [v ->]; [|eauto]. apply Hc. simpl. left.
  - destruct (Hb name) as [v ->]; [|eauto]. apply Hc. simpl. left.
  - destruct IHl as [x ->].
    { intros y Hy. apply Hc. simpl. apply elem_of_app. auto. }
    destruct IHr as [y ->]; [|eauto].
    intros z Hz. apply Hc. simpl. apply elem_of_app. auto.
  - destruct IHc as [b ->].
    { intros y Hy. apply Hc. simpl. apply elem_of_app. auto. }
    destruct (truthy b).
    + apply IHt. intros y Hy. apply Hc. simpl. rewrite !elem_of_app. auto.
    + apply IHf. intros y Hy. apply Hc. simpl. rewrite !elem_of_app. auto.
Qed.

Lemma stridedIndex_closed (offset : AluExp) (idxs : list AluExp) (strides : list Z) :
  closed X offset -> Forall (closed X) idxs ->
  closed X (stridedIndex offset idxs strides).
Proof.
  intros Ho Hi. revert offset strides Ho.
  induction Hi as [|idx idxs Hidx Hi IH]; intros offset [|st strides] Ho;
    simpl; auto.
  apply IH. autounfold with closed. auto with closed.
Qed.

Lemma windowIndex_closed (os ws : list AluExp) (strides : list Z) :
  Forall (closed X) os -> Forall (closed X) ws ->
  Forall (closed X) (windowIndex os ws strides).
Proof.
  intros Ho. revert ws strides.
  induction Ho as [|o os Ho Hos IH]; intros ws strides Hw; simpl; [constructor|].
  destruct Hw as [|w ws Hw Hws]; [constructor|].
  destruct strides as [|s strides]; constructor; [|auto].
  autounfold with closed. auto with closed.
Qed.

Lemma paddedIndex_closed (idxs : list AluExp) (pads : list (Z * Z)) :
  Forall (closed X) idxs -> Forall (closed X) (paddedIndex idxs pads).
Proof.
  intros Hi. revert pads.
  induction Hi as [|i idxs Hi His IH]; intros [|[before after] pads]; simpl;
    constructor; [|auto].
  autounfold with closed. auto with closed.
Qed.

Lemma paddedValid_closed (valid : AluExp) (idxs : list AluExp)
    (sizes : list Z) (pads : list (Z * Z)) :
  closed X valid -> Forall (closed X) idxs ->
  closed X (paddedValid valid idxs sizes pads).
Proof.
  intros Hv Hi. revert valid sizes pads Hv.
  induction Hi as [|i idxs Hi His IH];
    intros valid [|size sizes] [|[before after] pads] Hv; simpl; auto.
  apply IH. autounfold with closed. auto 10 with closed.
Qed.

Lemma applyView_closed (v : View) (idxs : list AluExp) (valid : AluExp) :
  Forall (closed X) idxs -> closed X valid ->
  Forall (closed X) (fst (applyView v (idxs, valid)))
  /\ closed X (snd (applyView v (idxs, valid))).
Proof.
  intros Hi Hv. unfold applyView.
  destruct (vkind v) as [strides offset|pads|window strides]; simpl.
  - split; [|assumption]. constructor; [|constructor].
    apply stridedIndex_closed; auto with closed.
  - split; [apply paddedIndex_closed | apply paddedValid_closed]; assumption.
  - split; [|assumption].
    apply windowIndex_closed; [apply Forall_take | apply Forall_drop]; assumption.
Qed.

Lemma toAluExp_closed (st : ShapeTracker) (indices : list AluExp) :
  Forall (closed X) indices ->
  closed X (fst (toAluExp st indices)) /\ closed X (snd (toAluExp st indices)).
Proof.
  intros Hi. unfold toAluExp.
  assert (H : Forall (closed X)
                (fst (fold_right applyView (indices, Const Bool 1) (views st)))
              /\ closed X
                (snd (fold_right applyView (indices, Const Bool 1) (views st)))).
  { induction (views st) as [|v vs IH]; simpl.
    - split; [assumption|]. intros x Hx. inversion Hx.
    - destruct (fold_right applyView (indices, Const Bool 1) vs) as [idxs valid].
      apply applyView_closed; tauto. }
  destruct (fold_right applyView (indices, Const Bool 1) (views st)) as [idxs valid].
  simpl in *. destruct H as [Hidxs Hvalid]. split; [|assumption].
  destruct Hidxs; simpl; auto with closed.
Qed.

Lemma unravelAlu_closed (shape : list Z) (index : AluExp) :
  closed X index -> Forall (closed X) (unravelAlu shape index).
Proof.
  intros Hc. induction shape as [|size rest IH]; simpl; constructor; [|assumption].
  autounfold with closed. auto with closed.
Qed.

End Closed.

(** ** Rounding to binary32 and the bytes of a binary32 value *)

Section Binary32.
Import F32.


Lemma digits2_pos_bounds (m : positive) :
  2 ^ (Z.pos (digits2_pos m) - 1) <= Z.pos m < 2 ^ Z.pos (digits2_pos m).
Proof.
  induction m as [m IH|m IH|]; simpl digits2_pos.
  - rewrite Pos2Z.inj_succ.
    replace (Z.succ (Z.pos (digits2_pos m)) - 1) with (Z.succ (Z.pos (digits2_pos m) - 1)) by lia.
    rewrite !Z.pow_succ_r by lia. lia.
  - rewrite Pos2Z.inj_succ.
    replace (Z.succ (Z.pos (digits2_pos m)) - 1) with (Z.succ (Z.pos (digits2_pos m) - 1)) by lia.
    rewrite !Z.pow_succ_r by lia. lia.
  - simpl. lia.
Qed.

Lemma digits2_pos_unique (m : positive) (d : Z) :
  2 ^ (d - 1) <= Z.pos m < 2 ^ d -> Z.pos (digits2_pos m) = d.
Proof.
  intros [Hlo Hhi]. pose proof (digits2_pos_bounds m) as [Hlo' Hhi'].
  assert (0 < d).
  { destruct (Z_lt_le_dec 0 d) as [|Hd]; [assumption|].
    destruct (Z.eq_dec d 0) as [->|]; [simpl in Hhi; lia|].
    rewrite Z.pow_neg_r in Hhi by lia. lia. }
  assert (d - 1 < Z.pos (digits2_pos m)).
  { apply (Z.pow_lt_mono_r_iff 2); lia. }
  assert (Z.pos (digits2_pos m) - 1 < d).
  { apply (Z.pow_lt_mono_r_iff 2); lia. }
  lia.
Qed.

Lemma shr_1_m (mrs : shr_record) :
  0 <= shr_m mrs -> shr_m (shr_1 mrs) = shr_m mrs / 2.
Proof.
  destruct mrs as [m r s]. simpl. intros Hm.
  destruct m as [|[p|p|]|p]; try lia; cbn [shr_1 shr_m].
  - reflexivity.
  - apply (Z.div_unique _ _ _ 1); lia.
  - apply (Z.div_unique _ _ _ 0); lia.
  - reflexivity.
Qed.

Lemma iter_shr_1_m (p : positive) (mrs : shr_record) :
  0 <= shr_m mrs ->
  shr_m (SpecFloat.iter_pos shr_1 p mrs) = shr_m mrs / 2 ^ Z.pos p
  /\ 0 <= shr_m (SpecFloat.iter_pos shr_1 p mrs).
Proof.
  revert mrs. induction p as [p IH|p IH|]; intros mrs Hm; simpl SpecFloat.iter_pos.
  - assert (H1 : 0 <= shr_m (shr_1 mrs)).
    { rewrite shr_1_m by assumption. apply Z.div_pos; lia. }
    destruct (IH _ H1) as [E1 P1]. destruct (IH _ P1) as [E2 P2].
    split; [|assumption].
    rewrite E2, E1, shr_1_m by assumption.
    rewrite !Z.div_div by lia. f_equal.
    replace (Z.pos p~1) with (1 + Z.pos p + Z.pos p) by lia.
    rewrite !Z.pow_add_r by lia. lia.
  - destruct (IH _ Hm) as [E1 P1]. destruct (IH _ P1) as [E2 P2].
    split; [|assumption].
    rewrite E2, E1. rewrite Z.div_div by lia. f_equal.
    replace (Z.pos p~0) with (Z.pos p + Z.pos p) by lia.
    rewrite Z.pow_add_r by lia. reflexivity.
  - rewrite shr_1_m by assumption. split; [reflexivity|]. apply Z.div_pos; lia.
Qed.


Lemma iter_xO (m d : positive) :
  Z.pos (Pos.iter xO m d) = Z.pos m * 2 ^ Z.pos d.
Proof.
  induction d as [|d IH] using Pos.peano_ind.
  - simpl. lia.
  - rewrite Pos.iter_succ, Pos2Z.inj_xO, IH, Pos2Z.inj_succ, Z.pow_succ_r; lia.
Qed.

Lemma shl_align_spec (mx : positive) (ex ex' : Z) :
  snd (shl_align mx ex ex') = Z.min ex ex'
  /\ Z.pos (fst (shl_align mx ex ex'))
     = Z.pos mx * 2 ^ (ex - Z.min ex ex').
Proof.
  unfold shl_align. destruct (ex' - ex) as [|d|d] eqn:E; simpl.
  - rewrite Z.min_l by lia. rewrite Z.sub_diag. simpl. lia.
  - rewrite Z.min_l by lia. rewrite Z.sub_diag. simpl. lia.
  - rewrite Z.min_r by lia. rewrite iter_xO.
    replace (ex - ex') with (Z.pos d) by lia. auto.
Qed.

Lemma digits2_pos_shift (m mz : positive) (k : Z) :
  0 <= k -> Z.pos mz = Z.pos m * 2 ^ k ->
  Z.pos (digits2_pos mz) = Z.pos (digits2_pos m) + k.
Proof.
  intros Hk Hmz. apply digits2_pos_unique. rewrite Hmz.
  pose proof (digits2_pos_bounds m) as [Hlo Hhi].
  replace (Z.pos (digits2_pos m) + k - 1) with (Z.pos (digits2_pos m) - 1 + k) by lia.
  rewrite !Z.pow_add_r by lia.
  assert (0 < 2 ^ k) by (apply Z.pow_pos_nonneg; lia). nia.
Qed.

Lemma shr_record_of_loc_m (m : Z) (l : location) :
  shr_m (shr_record_of_loc m l) = m.
Proof. destruct l as [|[]]; reflexivity. Qed.

(** One normalising shift: the mantissa is divided by 2^n and the exponent
    raised by n, when n is positive; nothing happens otherwise. *)
Lemma shr_fexp_spec (m e : Z) (l : location) :
  0 <= m ->
  let n := fexp 24 128 (Zdigits2 m + e) - e in
  snd (shr_fexp 24 128 m e l) = e + Z.max 0 n
  /\ shr_m (fst (shr_fexp 24 128 m e l)) = m / 2 ^ Z.max 0 n.
Proof.
  intros Hm n. unfold shr_fexp. fold n. unfold shr.
  destruct n as [|p|p]; simpl fst; simpl snd.
  - rewrite shr_record_of_loc_m. simpl. rewrite Z.div_1_r. lia.
  - rewrite Z.max_r by lia. split; [reflexivity|].
    destruct (iter_shr_1_m p (shr_record_of_loc m l)) as [E _].
    { rewrite shr_record_of_loc_m. exact Hm. }
    rewrite E, shr_record_of_loc_m. reflexivity.
  - rewrite shr_record_of_loc_m. rewrite Z.max_l by lia. simpl.
    rewrite Z.div_1_r. lia.
Qed.

Lemma round_nearest_even_bounds (m : Z) (l : location) :
  m <= round_nearest_even m l <= m + 1.
Proof.
  unfold round_nearest_even. destruct l as [|[]]; try lia.
  destruct (Z.even m); lia.
Qed.

Lemma fexp32 (e : Z) : fexp 24 128 e = Z.max (e - 24) (-149).
Proof. reflexivity. Qed.

Lemma binary_round_aux_representable (s : bool) (mz : positive) (ez : Z) :
  ez <= fexp 24 128 (Z.pos (digits2_pos mz) + ez) ->
  representable (binary_round_aux 24 128 s (Z.pos mz) ez loc_Exact)
  /\ binary_round_aux 24 128 s (Z.pos mz) ez loc_Exact <> S754_nan.
Proof.
  intros Hez. unfold binary_round_aux.
  pose proof (shr_fexp_spec (Z.pos mz) ez loc_Exact ltac:(lia)) as [He1 Hm1].
  destruct (shr_fexp 24 128 (Z.pos mz) ez loc_Exact) as [mrs1 e1].
  simpl fst in *; simpl snd in *.
  set (dz := Z.pos (digits2_pos mz)) in *.
  change (Zdigits2 (Z.pos mz)) with dz in *.
  rewrite fexp32 in *.
  set (n1 := Z.max 0 (Z.max (dz + ez - 24) (-149) - ez)) in *.
  pose proof (digits2_pos_bounds mz) as [Hlo Hhi]. fold dz in Hlo, Hhi.
  assert (Hn1 : 0 <= n1 /\ dz <= 24 + n1 /\ e1 = ez + n1 /\ -149 <= e1
                /\ (-149 < e1 -> n1 = dz - 24)) by lia.
  destruct Hn1 as (Hn0 & Hdz & -> & Hemin & Hnorm).
  assert (Hpow : 0 < 2 ^ n1) by (apply Z.pow_pos_nonneg; lia).
  assert (Hm1hi : shr_m mrs1 < 2 ^ 24).
  { rewrite Hm1. apply Z.div_lt_upper_bound; [assumption|].
    rewrite <- Z.pow_add_r by lia.
    apply Z.lt_le_trans with (1 := Hhi). apply Z.pow_le_mono_r; lia. }
  assert (Hm1lo : 0 <= shr_m mrs1).
  { rewrite Hm1. apply Z.div_pos; lia. }
  assert (Hm1norm : -149 < ez + n1 -> 2 ^ 23 <= shr_m mrs1).
  { intros Hgt. rewrite Hm1. apply Z.div_le_lower_bound; [assumption|].
    rewrite <- Z.pow_add_r by lia. rewrite (Hnorm Hgt).
    replace (dz - 24 + 23) with (dz - 1) by lia. exact Hlo. }
  pose proof (round_nearest_even_bounds (shr_m mrs1) (loc_of_shr_record mrs1)) as Hr.
  set (m2 := round_nearest_even (shr_m mrs1) (loc_of_shr_record mrs1)) in *.
  pose proof (shr_fexp_spec m2 (ez + n1) loc_Exact ltac:(lia)) as [He2 Hm2].
  destruct (shr_fexp 24 128 m2 (ez + n1) loc_Exact) as [mrs2 e2].
  simpl fst in *; simpl snd in *. rewrite fexp32 in *.
  destruct m2 as [|p2|p2] eqn:Em2; [| |lia].
  - (* the mantissa rounds to zero *)
    simpl Zdigits2 in *. rewrite Z.max_l in Hm2 by lia.
    simpl in Hm2. rewrite Hm2. simpl. split; [exact I | discriminate].
  - simpl Zdigits2 in *.
    pose proof (digits2_pos_bounds p2) as [Hlo2 Hhi2].
    set (d2 := Z.pos (digits2_pos p2)) in *.
    destruct (Z.eq_dec (Z.pos p2) (2 ^ 24)) as [Htop|Htop].
    + (* the rounding carried into a 25th bit *)
      assert (d2 = 25) as Hd2.
      { apply digits2_pos_unique. rewrite Htop. simpl. lia. }
      rewrite Hd2 in *.
      replace (Z.max 0 (Z.max (25 + (ez + n1) - 24) (-149) - (ez + n1)))
        with 1 in * by lia.
      rewrite Htop in Hm2. change (2 ^ 24 / 2 ^ 1) with (Z.pos (2 ^ 23)) in Hm2.
      rewrite Hm2. subst e2.
      destruct (ez + n1 + 1 <=? 128 - 24) eqn:Ele.
      * apply Z.leb_le in Ele. split; [|discriminate].
        simpl. repeat split; try lia.
      * split; [exact I | discriminate].
    + assert (Z.pos p2 < 2 ^ 24) as Hlt by lia.
      assert (d2 <= 24) as Hd2.
      { assert (d2 - 1 < 24); [|lia]. apply (Z.pow_lt_mono_r_iff 2); lia. }
      assert (-149 < ez + n1 -> d2 = 24) as Hd2n.
      { intros Hgt. apply digits2_pos_unique. specialize (Hm1norm Hgt).
        change (2 ^ (24 - 1)) with (2 ^ 23). lia. }
      replace (Z.max 0 (Z.max (d2 + (ez + n1) - 24) (-149) - (ez + n1)))
        with 0 in * by lia.
      change (2 ^ 0) with 1 in Hm2. rewrite Z.div_1_r in Hm2.
      rewrite Hm2. subst e2.
      destruct (ez + n1 + 0 <=? 128 - 24) eqn:Ele.
      * apply Z.leb_le in Ele. split; [|discriminate].
        simpl. repeat split; try lia.
      * split; [exact I | discriminate].
Qed.


Lemma binary_round_representable (s : bool) (m : positive) (e : Z) :
  representable (binary_round 24 128 s m e)
  /\ binary_round 24 128 s m e <> S754_nan.
Proof.
  unfold binary_round.
  pose proof (shl_align_spec m e (fexp 24 128 (Z.pos (digits2_pos m) + e)))
    as [Hez Hmz].
  destruct (shl_align m e (fexp 24 128 (Z.pos (digits2_pos m) + e))) as [mz ez].
  simpl fst in *; simpl snd in *.
  apply binary_round_aux_representable.
  rewrite (digits2_pos_shift m mz (e - ez)); [|lia|].
  - replace (Z.pos (digits2_pos m) + (e - ez) + ez)
      with (Z.pos (digits2_pos m) + e) by lia. lia.
  - rewrite Hmz, Hez. reflexivity.
Qed.

Lemma fround_representable (x : number) :
  representable (fround x) /\ (fround x = S754_nan -> x = S754_nan).
Proof.
  destruct x as [s|s| |s m e]; simpl; try (split; [exact I|]; auto; discriminate).
  destruct s; simpl;
    [destruct (binary_round_representable true m e) as [Hr Hn]
    |destruct (binary_round_representable false m e) as [Hr Hn]];
    (split; [exact Hr | intros H; contradiction]).
Qed.

Lemma ofBits_fields (s : bool) (e m : Z) :
  0 <= e < 256 -> 0 <= m < 2 ^ 23 ->
  (2 ^ 31 <=? signBit s + e * 2 ^ 23 + m) = s
  /\ ((signBit s + e * 2 ^ 23 + m) / 2 ^ 23) mod 256 = e
  /\ (signBit s + e * 2 ^ 23 + m) mod 2 ^ 23 = m
  /\ 0 <= signBit s + e * 2 ^ 23 + m < 2 ^ 32.
Proof.
  intros He Hm. unfold signBit.
  change (2 ^ 23) with 8388608 in *. change (2 ^ 31) with 2147483648.
  change (2 ^ 32) with 4294967296.
  destruct s; (split; [first [apply Z.leb_le | apply Z.leb_gt]; lia|]);
    repeat split; Z.to_euclidean_division_equations; lia.
Qed.

Lemma bitsOf_range (x : number) (bits : Z) :
  representable x -> bitsOf x = Some bits ->
  0 <= bits < 2 ^ 32 /\ ofBits bits = x.
Proof.
  destruct x as [s|s| |s m e]; simpl; intros Hx [= <-].
  - destruct (ofBits_fields s 0 0) as (Hs & He & Hm & Hr); [lia|lia|].
    replace (signBit s + 0 * 2 ^ 23 + 0) with (signBit s) in * by lia.
    split; [assumption|]. unfold ofBits. rewrite Hs, He, Hm. reflexivity.
  - destruct (ofBits_fields s 255 0) as (Hs & He & Hm & Hr); [lia|lia|].
    replace (signBit s + 255 * 2 ^ 23 + 0) with (signBit s + 255 * 2 ^ 23)
      in * by lia.
    split; [assumption|]. unfold ofBits. rewrite Hs, He, Hm. reflexivity.
  - destruct Hx as (He & Hm & Hnorm).
    destruct (Z.pos m <? 2 ^ 23) eqn:Esub.
    + apply Z.ltb_lt in Esub. assert (e = -149) as -> by lia.
      destruct (ofBits_fields s 0 (Z.pos m)) as (Hs & He' & Hm' & Hr); [lia|lia|].
      replace (signBit s + 0 * 2 ^ 23 + Z.pos m) with (signBit s + Z.pos m)
        in * by lia.
      split; [assumption|]. unfold ofBits. rewrite Hs, He', Hm'. reflexivity.
    + apply Z.ltb_ge in Esub.
      destruct (ofBits_fields s (e + 150) (Z.pos m - 2 ^ 23))
        as (Hs & He' & Hm' & Hr); [lia|lia|].
      split; [assumption|]. unfold ofBits. rewrite Hs, He', Hm'.
      destruct (e + 150 =? 0) eqn:E0; [apply Z.eqb_eq in E0; lia|].
      destruct (e + 150 =? 255) eqn:E255; [apply Z.eqb_eq in E255; lia|].
      replace (Z.pos m - 2 ^ 23 + 2 ^ 23) with (Z.pos m) by lia.
      replace (e + 150 - 150) with e by lia. reflexivity.
Qed.


Lemma byteOf_value (n : Z) : Z.of_N (Byte.to_N (byteOf n)) = n mod 256.
Proof.
  unfold byteOf. pose proof (Z.mod_pos_bound n 256 ltac:(lia)) as Hb.
  destruct (Byte.of_N (Z.to_N (n mod 256))) as [b|] eqn:E.
  - apply Byte.to_of_N in E. rewrite E. lia.
  - apply Byte.of_N_None_iff in E. lia.
Qed.

Lemma bits32_bytes32 (bits : Z) : 0 <= bits < 2 ^ 32 -> bits32 (bytes32 bits) = bits.
Proof.
  intros Hb. unfold bits32, bytes32. simpl fold_right.
  rewrite !byteOf_value.
  change (2 ^ 8) with 256. change (2 ^ 16) with 65536.
  change (2 ^ 24) with 16777216. change (2 ^ 32) with 4294967296 in Hb.
  Z.to_euclidean_division_equations. lia.
Qed.

Lemma isNaN32_spec (bits : Z) :
  isNaN32 bits = true -> 0 <= bits < 2 ^ 32 /\ ofBits bits = S754_nan.
Proof.
  unfold isNaN32. intros H.
  apply andb_true_iff in H as [H Hn]. apply andb_true_iff in H as [H0 H1].
  apply Z.leb_le in H0. apply Z.ltb_lt in H1. split; [lia|].
  destruct (ofBits bits); try discriminate. reflexivity.
Qed.

(** Reading back what was stored gives the stored number rounded to
    binary32, whatever bits the engine writes for a NaN. *)
Lemma decode_encode (nan : Z) (x : number) :
  isNaN32 nan = true -> decode (encode nan x) = fround x.
Proof.
  intros Hnan. unfold decode, encode.
  destruct (fround_representable x) as [Hr Hn].
  destruct (bitsOf (fround x)) as [bits|] eqn:E.
  - destruct (bitsOf_range _ _ Hr E) as [Hb Ho].
    rewrite bits32_bytes32 by assumption. exact Ho.
  - destruct (isNaN32_spec nan Hnan) as [Hb Ho].
    rewrite bits32_bytes32 by assumption. rewrite Ho.
    destruct (fround x); try discriminate. reflexivity.
Qed.

End Binary32.

(** ** Elements of a Float32Array *)

Section Elements.
Import F32.

Implicit Types (buf : ArrayBuffer) (v : number).

Lemma encode_length (nan : Z) v : length (encode nan v) = 4%nat.
Proof. reflexivity. Qed.

(** Replacing the bytes from [p]: the bytes of the replacement inside it, the
    old bytes outside. *)
Lemma splice_lookup (buf new : ArrayBuffer) (p k : nat) :
  (p + length new <= length buf)%nat ->
  (take p buf ++ new ++ drop (p + length new) buf) !! k
    = if decide (p <= k < p + length new)%nat then new !! (k - p)%nat
      else buf !! k.
Proof.
  intros Hp. assert (Hl : length (take p buf) = p) by (rewrite length_take; lia).
  destruct (decide (k < p)%nat) as [Hk|Hk].
  - rewrite lookup_app_l by lia. rewrite lookup_take_lt by lia.
    case_decide; [lia | reflexivity].
  - rewrite lookup_app_r by lia. rewrite Hl.
    destruct (decide (k < p + length new)%nat) as [Hk'|Hk'].
    + rewrite lookup_app_l by lia. case_decide; [reflexivity | lia].
    + rewrite lookup_app_r by lia. rewrite lookup_drop.
      case_decide; [lia|]. f_equal. lia.
Qed.

Lemma splice_length (buf new : ArrayBuffer) (p : nat) :
  (p + length new <= length buf)%nat ->
  length (take p buf ++ new ++ drop (p + length new) buf) = length buf.
Proof.
  intros Hp. rewrite !length_app, length_take, length_drop. lia.
Qed.

Lemma in_range_bytes buf (i : Z) :
  0 <= i < length32 buf ->
  (Z.to_nat (4 * i) + 4 <= length buf)%nat.
Proof.
  unfold length32, byteLength. intros [H0 Hi].
  pose proof (Z.div_mod (Z.of_nat (length buf)) 4 ltac:(lia)).
  pose proof (Z.mod_pos_bound (Z.of_nat (length buf)) 4 ltac:(lia)). lia.
Qed.

Lemma set_in_range {enc : NaNEncoding} buf (i : Z) v :
  0 <= i < length32 buf ->
  set buf i v
    = take (Z.to_nat (4 * i)) buf ++ encode (nan32 buf i) v
        ++ drop (Z.to_nat (4 * i) + length (encode (nan32 buf i) v)) buf.
Proof.
  intros [H0 Hi]. unfold set.
  destruct (0 <=? i) eqn:E0; [|apply Z.leb_gt in E0; lia].
  destruct (i <? length32 buf) eqn:E1; [|apply Z.ltb_ge in E1; lia].
  reflexivity.
Qed.

Lemma set_length {enc : NaNEncoding} buf (i : Z) v :
  length (set buf i v) = length buf.
Proof.
  destruct (decide (0 <= i < length32 buf)) as [Hi|Hi].
  - rewrite set_in_range by assumption. apply splice_length.
    rewrite encode_length. apply in_range_bytes, Hi.
  - unfold set. destruct (0 <=? i) eqn:E0; [|reflexivity].
    destruct (i <? length32 buf) eqn:E1; [|reflexivity].
    apply Z.leb_le in E0. apply Z.ltb_lt in E1. lia.
Qed.

Lemma set_length32 {enc : NaNEncoding} buf (i : Z) v :
  length32 (set buf i v) = length32 buf.
Proof. unfold length32, byteLength. rewrite set_length. reflexivity. Qed.

Lemma element_lookup buf (j : Z) (m : nat) :
  element buf j !! m
    = if decide (m < 4)%nat then buf !! (Z.to_nat (4 * j) + m)%nat else None.
Proof. unfold element. rewrite lookup_take, lookup_drop. reflexivity. Qed.

(** The element that was stored is the encoding of the stored number. *)
Lemma element_set_same {enc : NaNEncoding} buf (i : Z) v :
  0 <= i < length32 buf -> element (set buf i v) i = encode (nan32 buf i) v.
Proof.
  intros Hi. rewrite set_in_range by assumption.
  pose proof (in_range_bytes buf i Hi) as Hb.
  unfold element. rewrite drop_app_length'; [|rewrite length_take; lia].
  apply take_app_length'. reflexivity.
Qed.

(** The other elements are as they were. *)
Lemma element_set_other {enc : NaNEncoding} buf (i j : Z) v :
  0 <= j -> i <> j -> element (set buf i v) j = element buf j.
Proof.
  intros Hj Hne.
  destruct (decide (0 <= i < length32 buf)) as [Hi|Hi].
  - rewrite set_in_range by assumption.
    pose proof (in_range_bytes buf i Hi) as Hb.
    apply list_eq. intros m. rewrite !element_lookup.
    case_decide; [|reflexivity].
    rewrite splice_lookup by (rewrite encode_length; lia).
    rewrite encode_length. case_decide; [lia | reflexivity].
  - unfold set. destruct (0 <=? i) eqn:E0; [|reflexivity].
    destruct (i <? length32 buf) eqn:E1; [|reflexivity].
    apply Z.leb_le in E0. apply Z.ltb_lt in E1. lia.
Qed.

(** [c32[i] = v; c32[i]] is [Math.fround(v)]: the element read back is the
    stored number rounded to binary32, a NaN if the number is one. *)
Lemma get_set_same {enc : NaNEncoding} buf (i : Z) v :
  0 <= i < length32 buf -> get (set buf i v) i = Some (fround v).
Proof.
  intros Hi. unfold get. rewrite set_length32.
  destruct (0 <=? i) eqn:E0; [|apply Z.leb_gt in E0; lia].
  destruct (i <? length32 buf) eqn:E1; [|apply Z.ltb_ge in E1; lia].
  simpl. rewrite element_set_same by assumption.
  rewrite decode_encode by apply nan32_NaN. reflexivity.
Qed.

(** Storing a NaN writes the bits the engine chooses: with the engine that
    writes ffc00000, [Infinity + -Infinity] is stored as 00 00 c0 ff. *)
Lemma set_nan {enc : NaNEncoding} buf (i : Z) v :
  0 <= i < length32 buf -> fround v = S754_nan ->
  element (set buf i v) i = bytes32 (nan32 buf i).
Proof.
  intros Hi Hv. rewrite element_set_same by assumption.
  unfold encode. rewrite Hv. reflexivity.
Qed.

Lemma set_nan_example :
  set (enc := negativeNaN) [x00; x00; x00; x00] 0
    (jsAdd (S754_infinity false) (S754_infinity true))
  = [x00; x00; xc0; xff].
Proof. reflexivity. Qed.

(** A store changes no other element. *)
Lemma get_set_other {enc : NaNEncoding} buf (i j : Z) v :
  i <> j -> get (set buf i v) j = get buf j.
Proof.
  intros Hne. unfold get. rewrite set_length32.
  destruct (0 <=? j) eqn:E0; [|reflexivity]. apply Z.leb_le in E0.
  rewrite element_set_other by assumption. reflexivity.
Qed.

End Elements.

(** ** The asynchronous forms *)

Section Async.
Import Js Alu Shape F32 Cpu.

Implicit Types (σ : CPUBackend).

(** An [async] method never throws at the call; its promise is fulfilled
    exactly when the body returns and rejected exactly when the body throws,
    and the backend is left as the body leaves it. *)
Lemma async_settled {A : Type} (body : M A) σ :
  (forall a σ', async body σ = (Ok (Fulfilled a), σ') <-> body σ = (Ok a, σ'))
  /\ (forall e σ', async body σ = (Ok (Rejected e), σ') <-> body σ = (Throw e, σ'))
  /\ (exists p, async body σ = (Ok p, snd (body σ))).
Proof.
  unfold async. destruct (body σ) as [[a|e] σ1]; simpl.
  - split; [|split].
    + intros a' σ'. split; intros [= <- <-]; reflexivity.
    + intros e' σ'. split; intros [=].
    + eauto.
  - split; [|split].
    + intros a' σ'. split; intros [=].
    + intros e' σ'. split; intros [= <- <-]; reflexivity.
    + eauto.
Qed.

Lemma readSync_pure (slot : Z) (start count : option Z) σ :
  snd (readSync slot start count σ) = σ.
Proof.
  unfold readSync, bind, getBuffer, ret. destruct (buffers σ !! slot); reflexivity.
Qed.

(** C8.  [read] returns an already settled promise: fulfilled with the bytes
    [readSync] returns on the same backend, rejected with the exception
    [readSync] throws.  [executeOp] returns an already settled promise and
    leaves the backend as [executeOpSync] does: fulfilled when
    [executeOpSync] returns, rejected with the exception it throws. *)
Theorem async_mirrors {enc : NaNEncoding} σ (slot : Z) (start count : option Z) (op : BackendOp)
    (inputs : list Z) (shapes : list ShapeTracker) (outputs : list Z) :
  ((forall bytes σ',
      read slot start count σ = (Ok (Fulfilled bytes), σ')
      <-> readSync slot start count σ = (Ok bytes, σ'))
   /\ (forall e σ',
      read slot start count σ = (Ok (Rejected e), σ')
      <-> readSync slot start count σ = (Throw e, σ'))
   /\ (exists p, read slot start count σ = (Ok p, σ)))
  /\ ((forall u σ',
      executeOp op inputs shapes outputs σ = (Ok (Fulfilled u), σ')
      <-> executeOpSync op inputs shapes outputs σ = (Ok u, σ'))
   /\ (forall e σ',
      executeOp op inputs shapes outputs σ = (Ok (Rejected e), σ')
      <-> executeOpSync op inputs shapes outputs σ = (Throw e, σ'))
   /\ (exists p,
      executeOp op inputs shapes outputs σ
        = (Ok p, snd (executeOpSync op inputs shapes outputs σ)))).
Proof.
  split.
  - destruct (async_settled (readSync slot start count) σ) as (Hf & Hr & Hs).
    rewrite readSync_pure in Hs. auto.
  - apply async_settled.
Qed.

End Async.

(** ** The elementwise operations *)

Section Elementwise.
Import Js Alu Shape F32 Cpu.

Implicit Types (σ : CPUBackend) (f : number -> number -> number).

Lemma expOf_closed (st : ShapeTracker) (n : Z) :
  closed ["gidx"%string] (fst (expOf st n))
  /\ closed ["gidx"%string] (snd (expOf st n)).
Proof.
  unfold expOf. apply toAluExp_closed, unravelAlu_closed.
  intros x Hx. exact Hx.
Qed.

Lemma operandValue_ok (buf : ArrayBuffer) (exp valid : AluExp) (i : Z) :
  closed ["gidx"%string] exp -> closed ["gidx"%string] valid ->
  exists x, operandValue buf exp valid i = Ok x.
Proof.
  intros He Hv. unfold operandValue.
  assert (Hb : forall x : string, x ∈ ["gidx"%string] ->
                 is_Some (({[ "gidx"%string := i ]} : gmap string Z) !! x)).
  { intros x Hx. apply list_elem_of_singleton in Hx as ->.
    rewrite lookup_singleton_eq. eauto. }
  destruct (evaluate_closed _ _ valid Hb Hv) as [v ->].
  destruct (truthy v); [|eauto].
  destruct (evaluate_closed _ _ exp Hb He) as [idx ->]. eauto.
Qed.

Lemma operand_run (r : option Z) (exp valid : AluExp) (i : Z) σ :
  operand r exp valid i σ = (operandValue (view σ r) exp valid i, σ).
Proof.
  unfold operand, operandValue, bind, lift, load, ret.
  destruct (evaluate _ valid) as [v|err]; [|reflexivity].
  destruct (truthy v); [|reflexivity].
  destruct (evaluate _ exp) as [idx|err]; reflexivity.
Qed.

Lemma iteration_run {enc : NaNEncoding} f (sa sb sc : Z) (asP bsP : AluExp * AluExp) (i : Z) σ
    (ec : Entry) (mA mB : option number) :
  buffers σ !! sc = Some ec ->
  operandValue (view σ (Some sa)) (fst asP) (snd asP) i = Ok mA ->
  operandValue (view σ (Some sb)) (fst bsP) (snd bsP) i = Ok mB ->
  iteration f (Some sa) (Some sb) (Some sc) asP bsP i σ
    = (Ok tt,
       mkBackend
         (<[sc := mkEntry (ref ec) (set (buffer ec) i (arith f mA mB))]> (buffers σ))
         (nextSlot σ)).
Proof.
  intros Hc Ha Hb. unfold iteration, bind.
  rewrite operand_run, Ha, operand_run, Hb. unfold store. rewrite Hc.
  reflexivity.
Qed.

Lemma forLoop_snoc (count : nat) (i : Z) (body : Z -> M unit) σ :
  forLoop (S count) i body σ
    = match forLoop count i body σ with
      | (Ok _, σ') => body (i + Z.of_nat count) σ'
      | (Throw e, σ') => (Throw e, σ')
      end.
Proof.
  revert i σ. induction count as [|count IH]; intros i σ.
  - simpl. unfold bind, ret. rewrite Z.add_0_r.
    destruct (body i σ) as [[[]|e] σ']; reflexivity.
  - change (forLoop (S (S count)) i body σ)
      with (bind (body i) (fun _ => forLoop (S count) (i + 1) body) σ).
    change (forLoop (S count) i body σ)
      with (bind (body i) (fun _ => forLoop count (i + 1) body) σ).
    unfold bind. destruct (body i σ) as [[[]|e] σ1]; [|reflexivity].
    rewrite IH. replace (i + 1 + Z.of_nat count) with (i + Z.of_nat (S count)) by lia.
    reflexivity.
Qed.

Lemma backend_eta σ (slot : Z) (e : Entry) :
  buffers σ !! slot = Some e ->
  mkBackend (<[slot := mkEntry (ref e) (buffer e)]> (buffers σ)) (nextSlot σ) = σ.
Proof.
  intros H. destruct σ as [bufs next], e as [r b]. simpl in *.
  rewrite insert_id by assumption. reflexivity.
Qed.

(** The loop after [count] rounds: the output holds, at every position
    below [count], the operator applied to the two operands read when that
    position was reached, rounded to binary32; nothing else has changed. *)
Lemma loop_rounds {enc : NaNEncoding} f (sa sb sc : Z)
    (asP bsP : AluExp * AluExp) σ (ec : Entry) (count : nat) :
  let body := iteration f (Some sa) (Some sb) (Some sc) asP bsP in
  buffers σ !! sc = Some ec ->
  closed ["gidx"%string] (fst asP) -> closed ["gidx"%string] (snd asP) ->
  closed ["gidx"%string] (fst bsP) -> closed ["gidx"%string] (snd bsP) ->
  Z.of_nat count <= length32 (buffer ec) ->
  exists c',
    forLoop count 0 body σ
      = (Ok tt, mkBackend (<[sc := mkEntry (ref ec) c']> (buffers σ)) (nextSlot σ))
    /\ length c' = length (buffer ec)
    /\ forall j, 0 <= j < Z.of_nat count ->
         exists mA mB,
           operandValue (view (snd (forLoop (Z.to_nat j) 0 body σ)) (Some sa))
             (fst asP) (snd asP) j = Ok mA
           /\ operandValue (view (snd (forLoop (Z.to_nat j) 0 body σ)) (Some sb))
             (fst bsP) (snd bsP) j = Ok mB
           /\ get c' j = Some (fround (arith f mA mB)).
Proof.
  intros body Hc Hae Hav Hbe Hbv. induction count as [|count IH]; intros Hn.
  - exists (buffer ec). simpl. unfold ret.
    rewrite backend_eta by assumption.
    split; [reflexivity|]. split; [reflexivity|]. intros j Hj. lia.
  - destruct IH as (ck & Hrun & Hlen & Hdone); [lia|].
    set (σk := mkBackend (<[sc := mkEntry (ref ec) ck]> (buffers σ)) (nextSlot σ)) in *.
    destruct (operandValue_ok (view σk (Some sa)) (fst asP) (snd asP)
                (Z.of_nat count) Hae Hav) as [mA HmA].
    destruct (operandValue_ok (view σk (Some sb)) (fst bsP) (snd bsP)
                (Z.of_nat count) Hbe Hbv) as [mB HmB].
    exists (set ck (Z.of_nat count) (arith f mA mB)).
    split; [|split].
    + rewrite forLoop_snoc, Hrun. rewrite Z.add_0_l. unfold body.
      rewrite (iteration_run f sa sb sc asP bsP (Z.of_nat count) σk
                 (mkEntry (ref ec) ck) mA mB);
        [|apply lookup_insert_eq|assumption|assumption].
      simpl. rewrite insert_insert_eq. reflexivity.
    + rewrite set_length. exact Hlen.
    + intros j Hj. destruct (decide (j = Z.of_nat count)) as [->|Hne].
      * exists mA, mB. rewrite Nat2Z.id, Hrun. simpl. fold σk.
        split; [assumption|]. split; [assumption|].
        apply get_set_same. unfold length32, byteLength in *.
        rewrite Hlen. lia.
      * destruct (Hdone j) as (mA' & mB' & Ha' & Hb' & He'); [lia|].
        exists mA', mB'. split; [assumption|]. split; [assumption|].
        rewrite get_set_other by lia. exact He'.
Qed.

Lemma cpuOps_operatorOf {enc : NaNEncoding} (op : BackendOp) : cpuOps op = binaryOp (operatorOf op).
Proof. destruct op; reflexivity. Qed.

Lemma newFloat32Array_ok σ (slot : Z) (e : Entry) :
  buffers σ !! slot = Some e -> byteLength (buffer e) mod 4 = 0 ->
  newFloat32Array (Some slot) σ = (Ok tt, σ).
Proof.
  intros H Hm. unfold newFloat32Array, bytesOf. rewrite H. simpl.
  rewrite Hm. reflexivity.
Qed.

Lemma view_live σ (slot : Z) (e : Entry) :
  buffers σ !! slot = Some e -> view σ (Some slot) = buffer e.
Proof. intros H. unfold view, bytesOf. rewrite H. reflexivity. Qed.

(** C2.  [executeOpSync] with [Add] (with [Mul]) on two live inputs and one
    live output, each a whole number of float32 elements, returns, and every
    position [i] of the output then reads as [mA + mB] ([mA * mB]) rounded
    to float32, where [mA] is the element of the first input at the index
    its tracker yields for [i] when the tracker says [i] is valid and 0
    otherwise, and [mB] likewise for the second input.  The inputs are read
    when position [i] is reached; when the output is neither input that is
    the inputs as they were at the call.  In particular [1,2,3,4] plus
    [10,20,30,40] under identity trackers over shape [4] is [11,22,33,44],
    byte for byte. *)
Theorem elementwise_op {enc : NaNEncoding} :
  (forall (op : BackendOp) σ (sa sb sc : Z) (as_ bs : ShapeTracker)
          (ea eb ec : Entry),
     buffers σ !! sa = Some ea ->
     buffers σ !! sb = Some eb ->
     buffers σ !! sc = Some ec ->
     byteLength (buffer ea) mod 4 = 0 ->
     byteLength (buffer eb) mod 4 = 0 ->
     byteLength (buffer ec) mod 4 = 0 ->
     let n := length32 (buffer ec) in
     let asP := expOf as_ n in
     let bsP := expOf bs n in
     exists σ' c',
       executeOpSync op [sa; sb] [as_; bs] [sc] σ = (Ok tt, σ')
       /\ buffers σ' !! sc = Some (mkEntry (ref ec) c')
       /\ length32 c' = n
       /\ (forall i, 0 <= i < n ->
             exists mA mB,
               operandValue (view (stateAt op sa sb sc as_ bs n i σ) (Some sa))
                 (fst asP) (snd asP) i = Ok mA
               /\ operandValue (view (stateAt op sa sb sc as_ bs n i σ) (Some sb))
                 (fst bsP) (snd bsP) i = Ok mB
               /\ get c' i = Some (fround (arith (operatorOf op) mA mB)))
       /\ (sc <> sa -> sc <> sb ->
           forall i, 0 <= i < n ->
             exists mA mB,
               operandValue (buffer ea) (fst asP) (snd asP) i = Ok mA
               /\ operandValue (buffer eb) (fst bsP) (snd bsP) i = Ok mB
               /\ get c' i = Some (fround (arith (operatorOf op) mA mB))))
  /\ ofList [1; 2; 3; 4]
     = [x00; x00; x80; x3f; x00; x00; x00; x40;
        x00; x00; x40; x40; x00; x00; x80; x40]
  /\ ofList [10; 20; 30; 40]
     = [x00; x00; x20; x41; x00; x00; xa0; x41;
        x00; x00; xf0; x41; x00; x00; x20; x42]
  /\ fst (endToEnd new)
     = Ok [x00; x00; x30; x41; x00; x00; xb0; x41;
           x00; x00; x04; x42; x00; x00; x30; x42].
Proof.
  split; [|repeat split; vm_compute; reflexivity].
  intros op σ sa sb sc as_ bs ea eb ec Ha Hb Hc Ha4 Hb4 Hc4 n asP bsP.
  destruct (expOf_closed as_ n) as [Hae Hav].
  destruct (expOf_closed bs n) as [Hbe Hbv].
  destruct (loop_rounds (operatorOf op) sa sb sc asP bsP σ ec (Z.to_nat n)
              Hc Hae Hav Hbe Hbv) as (c' & Hrun & Hlen & Hdone).
  { subst n. unfold length32, byteLength.
    pose proof (Z.div_pos (Z.of_nat (length (buffer ec))) 4). lia. }
  assert (Hn0 : 0 <= n).
  { subst n. unfold length32, byteLength. apply Z.div_pos; lia. }
  exists (mkBackend (<[sc := mkEntry (ref ec) c']> (buffers σ)) (nextSlot σ)), c'.
  split; [|split; [|split; [|split]]].
  - unfold executeOpSync, bind. simpl. unfold bind, getBuffer, ret.
    rewrite Ha, Hb, Hc. rewrite cpuOps_operatorOf. unfold binaryOp, bind. simpl.
    rewrite (newFloat32Array_ok σ sa ea Ha Ha4),
      (newFloat32Array_ok σ sb eb Hb Hb4), (newFloat32Array_ok σ sc ec Hc Hc4).
    unfold lengthOf. rewrite (view_live σ sc ec Hc). unfold ret.
    exact Hrun.
  - simpl. apply lookup_insert_eq.
  - unfold length32, byteLength. rewrite Hlen. reflexivity.
  - intros i Hi. unfold stateAt. apply Hdone. lia.
  - intros Hsa Hsb i Hi. destruct (Hdone i) as (mA & mB & HmA & HmB & He); [lia|].
    exists mA, mB. split; [|split; [|exact He]].
    + destruct (loop_rounds (operatorOf op) sa sb sc asP bsP σ ec (Z.to_nat i)
                  Hc Hae Hav Hbe Hbv) as (ci & Hruni & _); [lia|].
      rewrite Hruni in HmA. simpl in HmA.
      erewrite view_live in HmA; [exact HmA|].
      simpl. rewrite lookup_insert_ne by assumption. exact Ha.
    + destruct (loop_rounds (operatorOf op) sa sb sc asP bsP σ ec (Z.to_nat i)
                  Hc Hae Hav Hbe Hbv) as (ci & Hruni & _); [lia|].
      rewrite Hruni in HmB. simpl in HmB.
      erewrite view_live in HmB; [exact HmB|].
      simpl. rewrite lookup_insert_ne by assumption. exact Hb.
Qed.

(** [Mul] with a first input of two elements padded by one position on
    either side: the padding reads as 0, so [_,1,2,_] times [10,20,30,40]
    is [0,20,60,0]. *)
Lemma elementwise_op_witness :
  exists σ' c',
    executeOpSync (enc := negativeNaN) Mul [1; 2]
      [pad (fromShape [2]) [(1, 1)]; fromShape [4]] [3] threeBuffers
      = (Ok tt, σ')
    /\ buffers σ' !! 3 = Some (mkEntry 1 c')
    /\ length32 c' = 4
    /\ c' = [x00; x00; x00; x00; x00; x00; xa0; x41;
             x00; x00; x70; x42; x00; x00; x00; x00].
Proof.
  destruct (proj1 (elementwise_op (enc := negativeNaN)) Mul threeBuffers 1 2 3
              (pad (fromShape [2]) [(1, 1)]) (fromShape [4])
              (mkEntry 1 (ofList [1; 2; 3; 4]))
              (mkEntry 1 (ofList [10; 20; 30; 40]))
              (mkEntry 1 (repeat x00 16)))
    as (σ' & c' & Hrun & Hc & Hlen & _);
    try (vm_compute; reflexivity).
  exists σ', c'. repeat split; try assumption.
  revert Hrun Hc. vm_compute. intros [= <-]. intros [= <-]. reflexivity.
Defined.

End Elementwise.

(** * Further properties *)

(** ** The padding policy *)

Section PaddingMore.
Import Js Lax.

Lemma ceil_div_bounds (a b : Z) :
  0 < b -> (ceil_div a b - 1) * b < a <= ceil_div a b * b.
Proof.
  intros Hb. unfold ceil_div.
  pose proof (Z.div_mod (- a) b ltac:(lia)) as Hdm.
  pose proof (Z.mod_pos_bound (- a) b Hb) as Hm. nia.
Qed.

Lemma same_lookup {cm : CaseMapping} (inShape filterShape strides dilation : list Z) (n : nat) (p : Z) :
  padSizes inShape filterShape strides dilation !! n = Some p ->
  0 <= p < 2 ^ 31 ->
  exists same lower,
    padtypeToPads inShape filterShape strides dilation "SAME" = Ok same
    /\ padtypeToPads inShape filterShape strides dilation "SAME_LOWER" = Ok lower
    /\ same !! n = Some (p / 2, p - p / 2)
    /\ lower !! n = Some (p - p / 2, p / 2).
Proof.
  intros Hp Hr. rewrite padtypeToPads_SAME, padtypeToPads_SAME_LOWER.
  do 2 eexists. split; [reflexivity|]. split; [reflexivity|].
  rewrite !list_lookup_fmap, Hp. simpl. unfold splitSame, splitSameLower.
  rewrite sar_1_small by lia. split; reflexivity.
Qed.



(** X3.  With stride 1, dilation 1 and an odd window of 2 * m + 1, SAME and
    SAME_LOWER both pad [m] before and [m] after, whatever the input size. *)
Theorem same_padding_odd_window {cm : CaseMapping}
    (inShape filterShape strides dilation : list Z) (n : nat) (i m : Z) :
  inShape !! n = Some i -> strides !! n = Some 1 ->
  filterShape !! n = Some (2 * m + 1) -> dilation !! n = Some 1 ->
  0 <= m < 2 ^ 30 ->
  exists same lower,
    padtypeToPads inShape filterShape strides dilation "SAME" = Ok same
    /\ padtypeToPads inShape filterShape strides dilation "SAME_LOWER" = Ok lower
    /\ same !! n = Some (m, m)
    /\ lower !! n = Some (m, m).
Proof.
  intros Hi Hs Hk Hd Hm.
  pose proof (padSizes_lookup _ _ _ _ n i 1 (2 * m + 1) 1 Hi Hs Hk Hd) as Hp.
  rewrite (ceil_div_spec i 1 i) in Hp by lia.
  replace (Z.max 0 ((i - 1) * 1 + 1 + (2 * m + 1 - 1) * 1 - i)) with (2 * m)
    in Hp by lia.
  destruct (same_lookup _ _ _ _ n (2 * m) Hp) as (same & lower & H1 & H2 & H3 & H4);
    [lia|].
  exists same, lower. split; [assumption|]. split; [assumption|].
  assert (Hhalf : 2 * m / 2 = m) by (rewrite Z.mul_comm; apply Z.div_mul; lia).
  rewrite Hhalf in H3, H4.
  replace (2 * m - m) with m in H3, H4 by lia. auto.
Qed.

Lemma same_padding_odd_window_witness :
  exists same lower,
    padtypeToPads (cm := asciiCase) [28; 28] [3; 5] [1; 1] [1; 1] "SAME" = Ok same
    /\ padtypeToPads (cm := asciiCase) [28; 28] [3; 5] [1; 1] [1; 1] "SAME_LOWER" = Ok lower
    /\ same !! 1%nat = Some (2, 2)
    /\ lower !! 1%nat = Some (2, 2).
Proof.
  apply (same_padding_odd_window (cm := asciiCase) [28; 28] [3; 5] [1; 1] [1; 1] 1 28 2);
    try reflexivity; lia.
Defined.

(** X4.  A window of 1 needs no padding: for any input size, positive
    stride and dilation, SAME and SAME_LOWER pad (0, 0). *)
Theorem same_padding_unit_window {cm : CaseMapping}
    (inShape filterShape strides dilation : list Z) (n : nat) (i s d : Z) :
  inShape !! n = Some i -> strides !! n = Some s ->
  filterShape !! n = Some 1 -> dilation !! n = Some d ->
  0 < s ->
  exists same lower,
    padtypeToPads inShape filterShape strides dilation "SAME" = Ok same
    /\ padtypeToPads inShape filterShape strides dilation "SAME_LOWER" = Ok lower
    /\ same !! n = Some (0, 0)
    /\ lower !! n = Some (0, 0).
Proof.
  intros Hi Hs Hk Hd Hs0.
  pose proof (padSizes_lookup _ _ _ _ n i s 1 d Hi Hs Hk Hd) as Hp.
  pose proof (ceil_div_bounds i s Hs0) as Hb.
  replace (Z.max 0 ((ceil_div i s - 1) * s + 1 + (1 - 1) * d - i)) with 0
    in Hp by lia.
  destruct (same_lookup _ _ _ _ n 0 Hp) as (same & lower & H1 & H2 & H3 & H4);
    [lia|].
  exists same, lower. auto.
Qed.

Lemma same_padding_unit_window_witness :
  exists same lower,
    padtypeToPads (cm := asciiCase) [9] [1] [4] [3] "SAME" = Ok same
    /\ padtypeToPads (cm := asciiCase) [9] [1] [4] [3] "SAME_LOWER" = Ok lower
    /\ same !! 0%nat = Some (0, 0)
    /\ lower !! 0%nat = Some (0, 0).
Proof.
  apply (same_padding_unit_window (cm := asciiCase) [9] [1] [4] [3] 0 9 4 3);
    try reflexivity; lia.
Defined.

(** X5.  SAME and SAME_LOWER give a dimension the same pair exactly when its
    total padding (below 2^31) is even. *)
Theorem same_lower_agree_iff_even {cm : CaseMapping}
    (inShape filterShape strides dilation : list Z) (n : nat) (p : Z) :
  padSizes inShape filterShape strides dilation !! n = Some p ->
  p < 2 ^ 31 ->
  exists same lower,
    padtypeToPads inShape filterShape strides dilation "SAME" = Ok same
    /\ padtypeToPads inShape filterShape strides dilation "SAME_LOWER" = Ok lower
    /\ (same !! n = lower !! n <-> p mod 2 = 0).
Proof.
  intros Hp Hlt. pose proof (padSizes_nonneg _ _ _ _ _ _ Hp) as H0.
  destruct (same_lookup _ _ _ _ n p Hp) as (same & lower & H1 & H2 & H3 & H4);
    [lia|].
  exists same, lower. split; [assumption|]. split; [assumption|].
  rewrite H3, H4.
  pose proof (Z.div_mod p 2 ltac:(lia)). pose proof (Z.mod_pos_bound p 2 ltac:(lia)).
  split.
  - intros [= Heq _]. lia.
  - intros Heven. do 2 f_equal; lia.
Qed.

Lemma same_lower_agree_iff_even_witness :
  exists same lower,
    padtypeToPads (cm := asciiCase) [5] [4] [1] [1] "SAME" = Ok same
    /\ padtypeToPads (cm := asciiCase) [5] [4] [1] [1] "SAME_LOWER" = Ok lower
    /\ (same !! 0%nat = lower !! 0%nat <-> 3 mod 2 = 0).
Proof.
  apply (same_lower_agree_iff_even (cm := asciiCase) [5] [4] [1] [1] 0 3); [reflexivity | lia].
Defined.

End PaddingMore.

(** ** The convolution wrappers *)

Section ConvWrappers.
Import Js Lax Conv.

Context {Array : Type}.
Variable ndim : Array -> Z.
Variable shape : Array -> list Z.
Variable convPrimitive : Array -> Array -> ConvParams -> result Array.


Lemma someNotOne_In (l : list Z) (d : Z) :
  In d l -> d <> 1 -> someNotOne (Some l) = true.
Proof.
  intros Hin Hd. simpl. apply existsb_exists. exists d.
  split; [assumption|]. apply negb_true_iff, Z.eqb_neq, Hd.
Qed.

(** X6.  The guards of [convGeneralDilated], in the order they are taken: an
    [lhs] of fewer than 2 dimensions, then an [rhs] of fewer than 2
    dimensions, then a string padding together with an [lhsDilation] that
    has an entry other than 1 (whatever the token, known or not), then an
    unknown token.  In each case the call throws and the primitive is not
    reached.  Literal pads are handed to the primitive as they are. *)
Theorem convGeneralDilated_guards {cm : CaseMapping} (lhs rhs : Array) (windowStrides : list Z)
    (lhsDilation rhsDilation : option (list Z)) :
  (forall padding,
     ndim lhs < 2 ->
     convGeneralDilated ndim shape convPrimitive lhs rhs windowStrides padding
       lhsDilation rhsDilation
     = Throw (Error "lhs must have at least 2 dimensions"))
  /\ (forall padding,
     2 <= ndim lhs -> ndim rhs < 2 ->
     convGeneralDilated ndim shape convPrimitive lhs rhs windowStrides padding
       lhsDilation rhsDilation
     = Throw (Error "rhs must have at least 2 dimensions"))
  /\ (forall name l d,
     2 <= ndim lhs -> 2 <= ndim rhs -> In d l -> d <> 1 ->
     convGeneralDilated ndim shape convPrimitive lhs rhs windowStrides
       (Token name) (Some l) rhsDilation
     = Throw (Error
         "String padding is not supported for transposed convolutions"))
  /\ (forall name,
     2 <= ndim lhs -> 2 <= ndim rhs -> someNotOne lhsDilation = false ->
     toUpperCase name <> "VALID"%string ->
     toUpperCase name <> "SAME"%string ->
     toUpperCase name <> "SAME_LOWER"%string ->
     convGeneralDilated ndim shape convPrimitive lhs rhs windowStrides
       (Token name) lhsDilation rhsDilation
     = Throw (Error ("Unknown padding type: " ++ toUpperCase name)))
  /\ (forall pads,
     2 <= ndim lhs -> 2 <= ndim rhs ->
     convGeneralDilated ndim shape convPrimitive lhs rhs windowStrides
       (Pads pads) lhsDilation rhsDilation
     = convPrimitive lhs rhs
         (mkConvParams windowStrides pads lhsDilation rhsDilation)).
Proof.
  unfold convGeneralDilated. repeat split.
  - intros padding Hl. apply Z.ltb_lt in Hl. rewrite Hl. reflexivity.
  - intros padding Hl Hr. apply Z.ltb_ge in Hl. apply Z.ltb_lt in Hr.
    rewrite Hl, Hr. reflexivity.
  - intros name l d Hl Hr Hin Hd. apply Z.ltb_ge in Hl, Hr. rewrite Hl, Hr.
    rewrite (someNotOne_In l d Hin Hd). reflexivity.
  - intros name Hl Hr Hdil H1 H2 H3. apply Z.ltb_ge in Hl, Hr.
    rewrite Hl, Hr, Hdil. unfold padtypeToPads.
    apply String.eqb_neq in H1, H2, H3. rewrite H1, H2, H3. reflexivity.
  - intros pads Hl Hr. apply Z.ltb_ge in Hl, Hr. rewrite Hl, Hr. reflexivity.
Qed.


End ConvWrappers.

Section ConvWitnesses.
Import Js Lax Conv.

Lemma convGeneralDilated_guards_witness :
  convGeneralDilated (cm := asciiCase) ndimOf shapeOf echo
    [1; 3; 8; 8] [4; 3; 3; 3] [1; 1]
    (Token "circular") (Some [2; 1]) None
  = Throw (Error "String padding is not supported for transposed convolutions").
Proof.
  refine (proj1 (proj2 (proj2
    (convGeneralDilated_guards (cm := asciiCase) ndimOf shapeOf echo
       [1; 3; 8; 8] [4; 3; 3; 3] [1; 1] (Some [2; 1]) None)))
    "circular"%string [2; 1] 2 _ _ _ _).
  - vm_compute. discriminate.
  - vm_compute. discriminate.
  - left. reflexivity.
  - lia.
Defined.


End ConvWitnesses.

(** ** Reading a buffer *)

Section Reading.
Import Js F32 Cpu CpuCalls.

Implicit Types (σ : CPUBackend) (slot : Z) (e : Entry).

Lemma readSync_slice σ slot e (start count : option Z) :
  buffers σ !! slot = Some e ->
  let first := match start with Some s => s | None => 0 end in
  let n := match count with
           | Some c => c
           | None => byteLength (buffer e) - first
           end in
  readSync slot start count σ = (Ok (slice (buffer e) first (first + n)), σ).
Proof.
  intros H. unfold readSync, bind, getBuffer, ret. rewrite H. reflexivity.
Qed.

Lemma slice_clamp (buf : ArrayBuffer) (b f : Z) :
  slice buf b f
    = take (Z.to_nat (clamp (byteLength buf) f - clamp (byteLength buf) b))
        (drop (Z.to_nat (clamp (byteLength buf) b)) buf).
Proof. reflexivity. Qed.

Lemma clamp_in_range (len x : Z) : 0 <= x <= len -> clamp len x = x.
Proof.
  intros H. unfold clamp. destruct (x <? 0) eqn:E; [apply Z.ltb_lt in E|]; lia.
Qed.


(** X8.  [readSync(slot, start, count)] with [start] and [count] inside the
    buffer returns exactly the [count] bytes that start at [start], and
    leaves the backend as it is. *)
Theorem readSync_range σ slot e (start count : Z) :
  buffers σ !! slot = Some e ->
  0 <= start -> 0 <= count -> start + count <= byteLength (buffer e) ->
  exists bytes,
    readSync slot (Some start) (Some count) σ = (Ok bytes, σ)
    /\ bytes = take (Z.to_nat count) (drop (Z.to_nat start) (buffer e))
    /\ byteLength bytes = count.
Proof.
  intros H Hs Hc Hle. eexists. split; [apply (readSync_slice σ slot e), H|].
  simpl. rewrite slice_clamp, !clamp_in_range by lia.
  replace (start + count - start) with count by lia.
  split; [reflexivity|].
  unfold byteLength in *. rewrite length_take, length_drop. lia.
Qed.

Lemma readSync_range_witness :
  exists bytes,
    readSync 1 (Some 4) (Some 8) threeBuffers = (Ok bytes, threeBuffers)
    /\ bytes = take (Z.to_nat 8) (drop (Z.to_nat 4) (ofList [1; 2; 3; 4]))
    /\ byteLength bytes = 8.
Proof.
  apply (readSync_range threeBuffers 1 (mkEntry 1 (ofList [1; 2; 3; 4])) 4 8);
    try (vm_compute; reflexivity); vm_compute; discriminate.
Defined.



(** X10.  Whatever [start] and [count] are, [readSync] on a live slot
    returns, without changing the backend, a run of consecutive bytes of the
    buffer: it never reads outside it. *)
Theorem readSync_inside σ slot e (start count : option Z) :
  buffers σ !! slot = Some e ->
  exists bytes before after,
    readSync slot start count σ = (Ok bytes, σ)
    /\ buffer e = before ++ bytes ++ after.
Proof.
  intros H. rewrite (readSync_slice σ slot e start count H).
  cbv zeta. rewrite slice_clamp.
  set (m := Z.to_nat (clamp _ (match start with Some s => s | None => 0 end))).
  set (n := Z.to_nat _).
  exists (take n (drop m (buffer e))), (take m (buffer e)),
    (drop n (drop m (buffer e))).
  split; [reflexivity|]. rewrite take_drop, take_drop. reflexivity.
Qed.

Lemma readSync_inside_witness :
  exists bytes before after,
    readSync 1 (Some (-100)) (Some 1000) threeBuffers = (Ok bytes, threeBuffers)
    /\ ofList [1; 2; 3; 4] = before ++ bytes ++ after.
Proof.
  apply (readSync_inside threeBuffers 1 (mkEntry 1 (ofList [1; 2; 3; 4]))).
  vm_compute. reflexivity.
Defined.

End Reading.

(** ** Allocation and reference counts *)

Section SlotsMore.
Import Js Alu Shape F32 Cpu CpuCalls.

Implicit Types (σ : CPUBackend) (slot : Z) (e : Entry).

Lemma reachable_wellFormed {enc : NaNEncoding} (calls : list Call) : wellFormed (snd (run calls new)).
Proof. apply (run_handles calls new wellFormed_new). Qed.

Lemma backend_insert_id σ slot e :
  buffers σ !! slot = Some e ->
  mkBackend (<[slot := e]> (buffers σ)) (nextSlot σ) = σ.
Proof.
  intros H. destruct σ as [bufs next]. simpl in *.
  rewrite insert_id by assumption. reflexivity.
Qed.

(** X11.  [malloc] without initial data gives a buffer of [size] zero
    bytes: reading the new slot back returns [size] bytes, all zero. *)
Theorem malloc_zero_filled σ (size : Z) :
  0 <= size ->
  exists slot σ' bytes,
    malloc size None σ = (Ok slot, σ')
    /\ readSync slot None None σ' = (Ok bytes, σ')
    /\ byteLength bytes = size
    /\ Forall (fun b => b = x00) bytes.
Proof.
  intros Hsize.
  destruct (malloc size None σ) as [[slot|err] σ'] eqn:E.
  - pose proof E as E'.
    apply malloc_returns_inv in E' as (buf & -> & -> & Hlen & _).
    assert (Hbuf : buf = repeat x00 (Z.to_nat size)).
    { revert E. unfold malloc. destruct (size <? 0); [discriminate|].
      intros [= E]. apply (f_equal (lookup (nextSlot σ))) in E.
      rewrite !lookup_insert_eq in E. congruence. }
    exists (nextSlot σ), (mkBackend (<[nextSlot σ := mkEntry 1 buf]> (buffers σ))
                           (nextSlot σ + 1)), buf.
    split; [reflexivity|]. split.
    + apply (readSync_whole _ _ (mkEntry 1 buf)). apply lookup_insert_eq.
    + split; [assumption|]. rewrite Hbuf. apply Forall_forall.
      intros b Hb. apply list_elem_of_In, repeat_spec in Hb. exact Hb.
  - revert E. unfold malloc. destruct (size <? 0) eqn:Hneg; [|discriminate].
    apply Z.ltb_lt in Hneg. lia.
Qed.

Lemma malloc_zero_filled_witness :
  exists slot σ' bytes,
    malloc 3 None new = (Ok slot, σ')
    /\ readSync slot None None σ' = (Ok bytes, σ')
    /\ byteLength bytes = 3
    /\ Forall (fun b => b = x00) bytes.
Proof. apply (malloc_zero_filled new 3). lia. Defined.

(** X12.  On a backend reached from a new one by any calls, [malloc],
    whether it returns or throws, leaves every live slot with the reference
    count and the bytes it had. *)
Theorem malloc_keeps_live_slots {enc : NaNEncoding} (calls : list Call) (size : Z)
    (data : option ArrayBuffer) :
  let σ := snd (run calls new) in
  forall slot e,
    buffers σ !! slot = Some e ->
    buffers (snd (malloc size data σ)) !! slot = Some e.
Proof.
  intros σ slot e He. pose proof (reachable_wellFormed calls slot e He) as [_ Hlt].
  fold σ in Hlt. unfold malloc.
  destruct (size <? 0); [exact He|].
  destruct data as [d|]; [destruct (negb (byteLength d =? size))|]; simpl;
    try exact He; rewrite lookup_insert_ne by lia; exact He.
Qed.

Lemma malloc_keeps_live_slots_witness :
  buffers (snd (malloc 8 None (snd (run (enc := negativeNaN) [CallMalloc 4 None] new)))) !! 1
    = Some (mkEntry 1 (repeat x00 4)).
Proof.
  apply (malloc_keeps_live_slots (enc := negativeNaN) [CallMalloc 4 None] 8 None 1). reflexivity.
Defined.

(** X13.  On a backend reached from a new one by any calls, [incRef] on a
    live slot followed by [decRef] on it gives back the very same backend. *)
Theorem incRef_decRef_restores {enc : NaNEncoding} (calls : list Call) slot e :
  let σ := snd (run calls new) in
  buffers σ !! slot = Some e ->
  exists σ1,
    incRef slot σ = (Ok tt, σ1) /\ decRef slot σ1 = (Ok tt, σ).
Proof.
  intros σ He. pose proof (reachable_wellFormed calls slot e He) as [Hr _].
  eexists. split; [apply (incRef_live σ slot e He)|].
  erewrite decRef_shared; [|apply lookup_insert_eq|simpl; lia].
  simpl. rewrite insert_insert_eq. replace (ref e + 1 - 1) with (ref e) by lia.
  f_equal. destruct e as [r b]. simpl. apply backend_insert_id, He.
Qed.

Lemma incRef_decRef_restores_witness :
  exists σ1,
    incRef 1 (snd (run (enc := negativeNaN) [CallMalloc 4 None] new)) = (Ok tt, σ1)
    /\ decRef 1 σ1 = (Ok tt, snd (run (enc := negativeNaN) [CallMalloc 4 None] new)).
Proof.
  apply (incRef_decRef_restores (enc := negativeNaN) [CallMalloc 4 None] 1 (mkEntry 1 (repeat x00 4))).
  reflexivity.
Defined.

Lemma times_incRef (n : nat) (bufs : gmap Z Entry) (next : Z) slot (r : Z)
    (buf : ArrayBuffer) :
  times n (incRef slot) (mkBackend (<[slot := mkEntry r buf]> bufs) next)
    = (Ok tt, mkBackend (<[slot := mkEntry (r + Z.of_nat n) buf]> bufs) next).
Proof.
  revert r. induction n as [|n IH]; intros r.
  - simpl. unfold ret. rewrite Z.add_0_r. reflexivity.
  - change (times (S n) (incRef slot)) with
      (bind (incRef slot) (fun _ => times n (incRef slot))).
    unfold bind. erewrite incRef_live; [|apply lookup_insert_eq].
    simpl. rewrite insert_insert_eq, IH. do 3 f_equal. f_equal. lia.
Qed.

Lemma times_decRef (n : nat) (bufs : gmap Z Entry) (next : Z) slot (r : Z)
    (buf : ArrayBuffer) :
  1 <= r ->
  times n (decRef slot)
    (mkBackend (<[slot := mkEntry (r + Z.of_nat n) buf]> bufs) next)
    = (Ok tt, mkBackend (<[slot := mkEntry r buf]> bufs) next).
Proof.
  intros Hr. induction n as [|n IH].
  - simpl. unfold ret. rewrite Z.add_0_r. reflexivity.
  - change (times (S n) (decRef slot)) with
      (bind (decRef slot) (fun _ => times n (decRef slot))).
    unfold bind. erewrite decRef_shared; [|apply lookup_insert_eq|simpl; lia].
    simpl. rewrite insert_insert_eq.
    replace (r + Z.of_nat (S n) - 1) with (r + Z.of_nat n) by lia. exact IH.
Qed.

(** X14.  A slot that [malloc] returned and that was retained [n] times
    has reference count [n + 1]; [n] releases bring the backend back to
    what it was right after the [malloc], the slot still live with its
    bytes, and one more release frees it. *)
Theorem retain_release_balance σ (size : Z) (data : option ArrayBuffer)
    slot σ1 (n : nat) :
  malloc size data σ = (Ok slot, σ1) ->
  exists σn σ',
    times n (incRef slot) σ1 = (Ok tt, σn)
    /\ ref <$> buffers σn !! slot = Some (1 + Z.of_nat n)
    /\ times n (decRef slot) σn = (Ok tt, σ1)
    /\ decRef slot σ1 = (Ok tt, σ')
    /\ buffers σ' !! slot = None.
Proof.
  intros Hm. apply malloc_returns_inv in Hm as (buf & -> & -> & _ & _).
  do 2 eexists. split; [apply times_incRef|].
  split; [simpl; rewrite lookup_insert_eq; reflexivity|].
  split; [apply times_decRef; lia|].
  split; [eapply decRef_last; [apply lookup_insert_eq | reflexivity]|].
  apply lookup_delete_eq.
Qed.

Lemma retain_release_balance_witness :
  exists σn σ',
    times 5 (incRef 1) (snd (malloc 8 None new)) = (Ok tt, σn)
    /\ ref <$> buffers σn !! 1 = Some (1 + Z.of_nat 5)
    /\ times 5 (decRef 1) σn = (Ok tt, snd (malloc 8 None new))
    /\ decRef 1 (snd (malloc 8 None new)) = (Ok tt, σ')
    /\ buffers σ' !! 1 = None.
Proof.
  apply (retain_release_balance new 8 None 1 (snd (malloc 8 None new)) 5).
  reflexivity.
Defined.

(** X15.  [incRef] and [decRef] touch no other slot, and never the bytes:
    a slot that is live after the call held the same bytes before it. *)
Theorem refcount_calls_keep_bytes σ slot :
  forall σ', σ' = snd (incRef slot σ) \/ σ' = snd (decRef slot σ) ->
    (forall other, other <> slot -> buffers σ' !! other = buffers σ !! other)
    /\ (forall e', buffers σ' !! slot = Some e' ->
          exists e, buffers σ !! slot = Some e /\ buffer e' = buffer e).
Proof.
  intros σ' [-> | ->].
  - unfold incRef. destruct (buffers σ !! slot) as [e|] eqn:E; simpl.
    + split.
      * intros other Hne. apply lookup_insert_ne. congruence.
      * intros e'. rewrite lookup_insert_eq. intros [= <-]. eauto.
    + split; [reflexivity|]. intros e'. rewrite E. discriminate.
  - unfold decRef. destruct (buffers σ !! slot) as [e|] eqn:E; simpl.
    + destruct (ref e - 1 =? 0); simpl; split.
      * intros other Hne. apply lookup_delete_ne. congruence.
      * intros e'. rewrite lookup_delete_eq. discriminate.
      * intros other Hne. apply lookup_insert_ne. congruence.
      * intros e'. rewrite lookup_insert_eq. intros [= <-]. eauto.
    + split; [reflexivity|]. intros e'. rewrite E. discriminate.
Qed.

Lemma refcount_calls_keep_bytes_witness :
  (forall other, other <> 2 ->
     buffers (snd (decRef 2 threeBuffers)) !! other = buffers threeBuffers !! other)
  /\ (forall e', buffers (snd (decRef 2 threeBuffers)) !! 2 = Some e' ->
        exists e, buffers threeBuffers !! 2 = Some e /\ buffer e' = buffer e).
Proof.
  apply (refcount_calls_keep_bytes threeBuffers 2). right. reflexivity.
Defined.

Lemma call_nextSlot {enc : NaNEncoding} (c : Call) σ :
  (fst (call c σ) = None /\ nextSlot (snd (call c σ)) = nextSlot σ)
  \/ (fst (call c σ) = Some (nextSlot σ)
      /\ nextSlot (snd (call c σ)) = nextSlot σ + 1).
Proof.
  assert (Hkeep : forall (A : Type) (m : M A),
            keepsRefs m -> nextSlot (snd (m σ)) = nextSlot σ).
  { intros A m Hm. destruct (m σ) as [r σ'] eqn:E. apply (Hm σ r σ' E). }
  destruct c; simpl.
  - destruct (malloc size initialData σ) as [[slot|err] σ'] eqn:E; simpl.
    + right. apply malloc_returns_inv in E as (buf & -> & -> & _). auto.
    + left. split; [reflexivity|]. revert E. unfold malloc.
      destruct (size <? 0); [congruence|].
      destruct initialData as [d|]; [destruct (byteLength d =? size)|];
        simpl; congruence.
  - left. split; [reflexivity|]. unfold incRef.
    destruct (buffers σ !! slot); reflexivity.
  - left. split; [reflexivity|]. unfold decRef.
    destruct (buffers σ !! slot) as [e|]; simpl;
      [destruct (ref e - 1 =? 0)|]; reflexivity.
  - left. split; [reflexivity|]. apply Hkeep, keepsRefs_readSync.
  - left. split; [reflexivity|]. apply Hkeep, keepsRefs_async, keepsRefs_readSync.
  - left. split; [reflexivity|]. apply Hkeep, keepsRefs_executeOpSync.
  - left. split; [reflexivity|].
    apply Hkeep, keepsRefs_async, keepsRefs_executeOpSync.
Qed.

Lemma run_consecutive {enc : NaNEncoding} (calls : list Call) σ :
  fst (run calls σ)
    = seqZ (nextSlot σ) (Z.of_nat (length (fst (run calls σ))))
  /\ nextSlot (snd (run calls σ))
     = nextSlot σ + Z.of_nat (length (fst (run calls σ))).
Proof.
  revert σ. induction calls as [|c calls IH]; intros σ; simpl.
  - split; [reflexivity | lia].
  - pose proof (call_nextSlot c σ) as Hc.
    destruct (call c σ) as [h σ1]. simpl in Hc.
    specialize (IH σ1). destruct (run calls σ1) as [hs σ2]. simpl in *.
    destruct IH as [IH1 IH2].
    destruct Hc as [[-> Hn] | [-> Hn]]; simpl.
    + rewrite <- Hn. auto.
    + split; [|lia].
      rewrite seqZ_cons by lia. f_equal.
      replace (Z.succ (nextSlot σ)) with (nextSlot σ1) by lia.
      replace (Z.pred (Z.of_nat (S (length hs)))) with (Z.of_nat (length hs)) by lia.
      exact IH1.
Qed.

(** X16.  The handles a new backend hands out are 1, 2, 3, ... in the order
    of the [malloc] calls that return; a [malloc] that throws and the other
    calls use up no handle. *)
Theorem handles_count_up {enc : NaNEncoding} (calls : list Call) :
  let '(handles, σ) := run calls new in
  handles = seqZ 1 (Z.of_nat (length handles))
  /\ nextSlot σ = 1 + Z.of_nat (length handles).
Proof.
  pose proof (run_consecutive calls new) as H.
  destruct (run calls new) as [handles σ]. exact H.
Qed.

End SlotsMore.

(** ** What an operation checks and what it writes *)

Section Operations.
Import Js Alu Shape F32 Cpu CpuCalls.

Implicit Types (σ : CPUBackend) (slot : Z) (e : Entry).

Lemma mapM_getBuffer σ (slots : list Z) :
  match firstStale σ slots with
  | Some slot => mapM getBuffer slots σ = (Throw (SlotError slot), σ)
  | None => exists bufs, mapM getBuffer slots σ = (Ok bufs, σ)
  end.
Proof.
  induction slots as [|slot slots IH].
  - simpl. eexists. reflexivity.
  - assert (Hcons : mapM getBuffer (slot :: slots) σ
      = match buffers σ !! slot with
        | None => (Throw (SlotError slot), σ)
        | Some e =>
            match mapM getBuffer slots σ with
            | (Ok ys, σ') => (Ok (buffer e :: ys), σ')
            | (Throw err, σ') => (Throw err, σ')
            end
        end).
    { simpl. unfold bind, getBuffer, ret.
      destruct (buffers σ !! slot); reflexivity. }
    rewrite Hcons. simpl firstStale.
    destruct (buffers σ !! slot) as [e|]; [|reflexivity].
    destruct (firstStale σ slots) as [stale|].
    + rewrite IH. reflexivity.
    + destruct IH as [bufs ->]. eexists. reflexivity.
Qed.

Lemma firstStale_app σ (l1 l2 : list Z) :
  firstStale σ (l1 ++ l2)
    = match firstStale σ l1 with
      | Some slot => Some slot
      | None => firstStale σ l2
      end.
Proof.
  induction l1 as [|slot l1 IH]; simpl; [reflexivity|].
  destruct (buffers σ !! slot); [exact IH | reflexivity].
Qed.

Lemma firstStale_split σ (pre post : list Z) slot :
  Forall (fun s => is_Some (buffers σ !! s)) pre ->
  buffers σ !! slot = None ->
  firstStale σ (pre ++ slot :: post) = Some slot.
Proof.
  intros Hpre Hs. induction Hpre as [|s pre [e He] Hpre IH]; simpl.
  - rewrite Hs. reflexivity.
  - rewrite He. exact IH.
Qed.

Lemma executeOpSync_stale {enc : NaNEncoding} (op : BackendOp) (inputs : list Z)
    (shapes : list ShapeTracker) (outputs : list Z) σ slot :
  firstStale σ (inputs ++ outputs) = Some slot ->
  executeOpSync op inputs shapes outputs σ = (Throw (SlotError slot), σ).
Proof.
  rewrite firstStale_app. intros H. unfold executeOpSync, bind.
  pose proof (mapM_getBuffer σ inputs) as Hin.
  destruct (firstStale σ inputs) as [stale|].
  - injection H as ->. rewrite Hin. reflexivity.
  - destruct Hin as [bufs ->].
    pose proof (mapM_getBuffer σ outputs) as Hout. rewrite H in Hout.
    rewrite Hout. reflexivity.
Qed.

(** X17.  [executeOpSync] looks every input slot up, in order, and then
    every output slot, before anything else: the first one of them that is
    not live makes the call throw [SlotError] for it, and nothing is
    written. *)
Theorem executeOpSync_checks_slots {enc : NaNEncoding} (op : BackendOp) (inputs : list Z)
    (shapes : list ShapeTracker) (outputs : list Z) σ
    (pre post : list Z) slot :
  inputs ++ outputs = pre ++ slot :: post ->
  Forall (fun s => is_Some (buffers σ !! s)) pre ->
  buffers σ !! slot = None ->
  executeOpSync op inputs shapes outputs σ = (Throw (SlotError slot), σ).
Proof.
  intros Hsplit Hpre Hs. apply executeOpSync_stale.
  rewrite Hsplit. apply firstStale_split; assumption.
Qed.

Lemma executeOpSync_checks_slots_witness :
  executeOpSync (enc := negativeNaN) Add [1; 2] [fromShape [4]; fromShape [4]] [7; 9] threeBuffers
    = (Throw (SlotError 7), threeBuffers).
Proof.
  apply (executeOpSync_checks_slots (enc := negativeNaN) Add [1; 2] _ [7; 9] threeBuffers [1; 2] [9] 7).
  - reflexivity.
  - repeat constructor; vm_compute; eauto.
  - vm_compute. reflexivity.
Defined.

Lemma executeOpSync_live {enc : NaNEncoding} (op : BackendOp) (inputs : list Z)
    (shapes : list ShapeTracker) (outputs : list Z) σ :
  Forall (fun s => is_Some (buffers σ !! s)) (inputs ++ outputs) ->
  executeOpSync op inputs shapes outputs σ
    = binaryOp (operatorOf op) inputs shapes outputs σ.
Proof.
  intros Hlive. apply Forall_app in Hlive as [Hin Hout].
  assert (Hnone : forall l, Forall (fun s => is_Some (buffers σ !! s)) l ->
                    firstStale σ l = None).
  { intros l Hl. induction Hl as [|s l [e He] Hl IH]; simpl; [reflexivity|].
    rewrite He. exact IH. }
  unfold executeOpSync, bind.
  pose proof (mapM_getBuffer σ inputs) as H1. rewrite (Hnone _ Hin) in H1.
  destruct H1 as [b1 ->].
  pose proof (mapM_getBuffer σ outputs) as H2. rewrite (Hnone _ Hout) in H2.
  destruct H2 as [b2 ->]. rewrite cpuOps_operatorOf. reflexivity.
Qed.

Lemma newFloat32Array_cases (r : option Z) σ :
  newFloat32Array r σ = (Ok tt, σ)
  \/ exists msg, newFloat32Array r σ = (Throw (RangeError msg), σ).
Proof.
  unfold newFloat32Array. destruct (bytesOf σ r) as [buf|]; [|auto].
  destruct (byteLength buf mod 4 =? 0); eauto.
Qed.

Lemma newFloat32Array_ragged (r : option Z) σ (buf : ArrayBuffer) :
  bytesOf σ r = Some buf -> byteLength buf mod 4 <> 0 ->
  exists msg, newFloat32Array r σ = (Throw (RangeError msg), σ).
Proof.
  intros Hb Hm. unfold newFloat32Array. rewrite Hb.
  apply Z.eqb_neq in Hm. rewrite Hm. eauto.
Qed.

(** X18.  When all the slots are live but the buffer of the first input, of
    the second input or of the first output is not a whole number of
    4-byte elements, [executeOpSync] throws a [RangeError] and nothing is
    written. *)
Theorem executeOpSync_ragged_buffer {enc : NaNEncoding} (op : BackendOp) (inputs : list Z)
    (shapes : list ShapeTracker) (outputs : list Z) σ
    (r : option Z) (buf : ArrayBuffer) :
  Forall (fun s => is_Some (buffers σ !! s)) (inputs ++ outputs) ->
  In r [inputs !! 0%nat; inputs !! 1%nat; outputs !! 0%nat] ->
  bytesOf σ r = Some buf ->
  byteLength buf mod 4 <> 0 ->
  exists msg,
    executeOpSync op inputs shapes outputs σ = (Throw (RangeError msg), σ).
Proof.
  intros Hlive Hin Hb Hm. rewrite executeOpSync_live by assumption.
  pose proof (newFloat32Array_ragged r σ buf Hb Hm) as [msg Hbad].
  unfold binaryOp, bind.
  destruct (newFloat32Array_cases (inputs !! 0%nat) σ) as [H0 | [m H0]];
    rewrite H0; [|eauto].
  destruct (newFloat32Array_cases (inputs !! 1%nat) σ) as [H1 | [m H1]];
    rewrite H1; [|eauto].
  destruct (newFloat32Array_cases (outputs !! 0%nat) σ) as [H2 | [m H2]];
    rewrite H2; [|eauto].
  exfalso. simpl in Hin.
  destruct Hin as [<- | [<- | [<- | []]]]; congruence.
Qed.

Lemma executeOpSync_ragged_buffer_witness :
  exists msg,
    executeOpSync (enc := negativeNaN) Mul [1; 1] [fromShape [1]; fromShape [1]] [1]
      (snd (malloc 6 None new))
    = (Throw (RangeError msg), snd (malloc 6 None new)).
Proof.
  apply (executeOpSync_ragged_buffer (enc := negativeNaN) Mul [1; 1] _ [1] (snd (malloc 6 None new))
           (Some 1) (repeat x00 6)).
  - repeat constructor; vm_compute; eauto.
  - left. reflexivity.
  - reflexivity.
  - vm_compute. discriminate.
Defined.

End Operations.

(** ** What an operation leaves alone *)

Section Keeps.
Import Js Alu Shape F32 Cpu CpuCalls.

Variable R : CPUBackend -> CPUBackend -> Prop.
Hypothesis R_refl : forall σ, R σ σ.
Hypothesis R_trans : forall σ1 σ2 σ3, R σ1 σ2 -> R σ2 σ3 -> R σ1 σ3.

Lemma keeps_pure {A : Type} (m : M A) :
  (forall σ, snd (m σ) = σ) -> keeps R m.
Proof.
  intros Hm σ r σ' E. specialize (Hm σ). rewrite E in Hm. simpl in Hm.
  subst σ'. apply R_refl.
Qed.

Lemma keeps_bind {A B : Type} (m : M A) (k : A -> M B) :
  keeps R m -> (forall a, keeps R (k a)) -> keeps R (bind m k).
Proof.
  intros Hm Hk σ r σ'. unfold bind.
  destruct (m σ) as [[a|err] σ1] eqn:E.
  - intros H. eapply R_trans; [eapply Hm, E | eapply Hk, H].
  - intros [= _ <-]. eapply Hm, E.
Qed.

Lemma keeps_mapM {A B : Type} (f : A -> M B) (l : list A) :
  (forall a, keeps R (f a)) -> keeps R (mapM f l).
Proof.
  intros Hf. induction l as [|x l IH]; simpl.
  - apply keeps_pure. reflexivity.
  - apply keeps_bind; [apply Hf|]. intros y.
    apply keeps_bind; [apply IH|]. intros ys. apply keeps_pure. reflexivity.
Qed.

Lemma keeps_forLoop (count : nat) (i : Z) (body : Z -> M unit) :
  (forall j, keeps R (body j)) -> keeps R (forLoop count i body).
Proof.
  intros Hb. revert i. induction count as [|count IH]; intros i; simpl.
  - apply keeps_pure. reflexivity.
  - apply keeps_bind; [apply Hb|]. intros _. apply IH.
Qed.

Lemma keeps_binaryOp {enc : NaNEncoding} (f : number -> number -> number)
    (inputs : list Z) (shapes : list ShapeTracker) (outputs : list Z) :
  (forall i v, keeps R (store (outputs !! 0%nat) i v)) ->
  keeps R (binaryOp f inputs shapes outputs).
Proof.
  intros Hstore. unfold binaryOp.
  do 3 (apply keeps_bind;
        [apply keeps_pure; intros σ; unfold newFloat32Array;
         destruct (bytesOf σ _) as [buf|]; [destruct (_ =? _)|]; reflexivity|];
        intros _).
  apply keeps_bind; [apply keeps_pure; reflexivity|]. intros n.
  apply keeps_bind;
    [apply keeps_pure; intros σ; destruct (shapes !! 0%nat); reflexivity|].
  intros as_.
  apply keeps_bind;
    [apply keeps_pure; intros σ; destruct (shapes !! 1%nat); reflexivity|].
  intros bs. apply keeps_forLoop. intros j. unfold iteration.
  assert (Hop : forall r exp valid, keeps R (operand r exp valid j)).
  { intros r exp valid. apply keeps_pure. intros σ. rewrite operand_run.
    reflexivity. }
  apply keeps_bind; [apply Hop|]. intros x.
  apply keeps_bind; [apply Hop|]. intros y. apply Hstore.
Qed.

Lemma keeps_executeOpSync {enc : NaNEncoding} (op : BackendOp)
    (inputs : list Z) (shapes : list ShapeTracker) (outputs : list Z) :
  (forall i v, keeps R (store (outputs !! 0%nat) i v)) ->
  keeps R (executeOpSync op inputs shapes outputs).
Proof.
  intros Hstore. unfold executeOpSync.
  do 2 (apply keeps_bind;
        [apply keeps_mapM; intros slot; apply keeps_pure; intros σ;
         unfold getBuffer; destruct (buffers σ !! slot); reflexivity|];
        intros _).
  rewrite cpuOps_operatorOf. apply keeps_binaryOp, Hstore.
Qed.

End Keeps.

Section Writes.
Import Js Alu Shape F32 Cpu CpuCalls.

Implicit Types (σ : CPUBackend) (slot : Z) (e : Entry).

Lemma writesOnly_refl (c : option Z) σ : writesOnly c σ σ.
Proof.
  split; [reflexivity|]. split; [reflexivity|]. split; [|auto].
  intros slot e He. exists e. auto.
Qed.

Lemma writesOnly_trans (c : option Z) σ1 σ2 σ3 :
  writesOnly c σ1 σ2 -> writesOnly c σ2 σ3 -> writesOnly c σ1 σ3.
Proof.
  intros (Hn1 & Ho1 & Hl1 & Hd1) (Hn2 & Ho2 & Hl2 & Hd2).
  split; [congruence|]. split; [|split].
  - intros slot Hne. rewrite Ho2, Ho1 by assumption. reflexivity.
  - intros slot e He. destruct (Hl1 slot e He) as (e' & He' & Hr' & Hlen').
    destruct (Hl2 slot e' He') as (e'' & He'' & Hr'' & Hlen'').
    exists e''. split; [assumption|]. split; congruence.
  - auto.
Qed.

Lemma store_writesOnly {enc : NaNEncoding} (c : option Z) (i : Z) (v : number) :
  keeps (writesOnly c) (store c i v).
Proof.
  intros σ r σ'. unfold store. destruct c as [slot|];
    [|intros [= _ <-]; apply writesOnly_refl].
  destruct (buffers σ !! slot) as [e|] eqn:E;
    intros [= _ <-]; [|apply writesOnly_refl].
  split; [reflexivity|]. split; [|split]; simpl.
  - intros other Hne. apply lookup_insert_ne. congruence.
  - intros other e0 He0. destruct (decide (slot = other)) as [<-|Hne].
    + rewrite lookup_insert_eq. eexists. split; [reflexivity|]. simpl.
      rewrite set_length. split; congruence.
    + rewrite lookup_insert_ne by assumption. eauto.
  - intros other Hnone. rewrite lookup_insert_ne by congruence. exact Hnone.
Qed.

(** X19.  Whatever [executeOpSync] returns or throws, it has written to
    nothing but the buffer of its first output: every other slot has the
    entry it had, the next handle is the same, no slot has appeared or
    gone, and every buffer, the first output's too, has the reference count
    and the length it had. *)
Theorem executeOpSync_writes_first_output {enc : NaNEncoding} (op : BackendOp)
    (inputs : list Z) (shapes : list ShapeTracker) (outputs : list Z)
    σ (r : result unit) σ' :
  executeOpSync op inputs shapes outputs σ = (r, σ') ->
  nextSlot σ' = nextSlot σ
  /\ (forall slot, Some slot <> outputs !! 0%nat ->
        buffers σ' !! slot = buffers σ !! slot)
  /\ (forall slot e, buffers σ !! slot = Some e ->
        exists e',
          buffers σ' !! slot = Some e'
          /\ ref e' = ref e /\ length (buffer e') = length (buffer e))
  /\ (forall slot, buffers σ !! slot = None -> buffers σ' !! slot = None).
Proof.
  apply (keeps_executeOpSync (writesOnly (outputs !! 0%nat))
           (writesOnly_refl _) (writesOnly_trans _) op inputs shapes outputs).
  intros i v. apply store_writesOnly.
Qed.

Lemma executeOpSync_writes_first_output_witness :
  buffers (snd (executeOpSync (enc := negativeNaN) Add [1; 2] [fromShape [4]; fromShape [4]] [3]
                  threeBuffers)) !! 2
    = buffers threeBuffers !! 2.
Proof.
  refine (proj1 (proj2 (executeOpSync_writes_first_output (enc := negativeNaN) Add [1; 2]
            [fromShape [4]; fromShape [4]] [3] threeBuffers (Ok tt)
            (snd (executeOpSync (enc := negativeNaN) Add [1; 2] [fromShape [4]; fromShape [4]] [3]
                    threeBuffers)) _)) 2 _).
  - vm_compute. reflexivity.
  - simpl. discriminate.
Defined.

End Writes.

(** ** An output that is also an input *)

Section InPlace.
Import Js Alu Shape F32 Cpu CpuCalls.

Implicit Types (σ : CPUBackend) (f : number -> number -> number).

(** The loop after [count] rounds has not touched the positions from
    [count] on. *)
Lemma loop_rounds_tail {enc : NaNEncoding} f (sa sb sc : Z) (asP bsP : AluExp * AluExp) σ
    (ec : Entry) (count : nat) :
  let body := iteration f (Some sa) (Some sb) (Some sc) asP bsP in
  buffers σ !! sc = Some ec ->
  closed ["gidx"%string] (fst asP) -> closed ["gidx"%string] (snd asP) ->
  closed ["gidx"%string] (fst bsP) -> closed ["gidx"%string] (snd bsP) ->
  exists c',
    forLoop count 0 body σ
      = (Ok tt, mkBackend (<[sc := mkEntry (ref ec) c']> (buffers σ)) (nextSlot σ))
    /\ length c' = length (buffer ec)
    /\ forall j, Z.of_nat count <= j -> element c' j = element (buffer ec) j.
Proof.
  intros body Hc Hae Hav Hbe Hbv. induction count as [|count IH].
  - exists (buffer ec). simpl. unfold ret. rewrite backend_eta by assumption.
    auto.
  - destruct IH as (ck & Hrun & Hlen & Hrest).
    set (σk := mkBackend (<[sc := mkEntry (ref ec) ck]> (buffers σ)) (nextSlot σ)) in *.
    destruct (operandValue_ok (view σk (Some sa)) (fst asP) (snd asP)
                (Z.of_nat count) Hae Hav) as [mA HmA].
    destruct (operandValue_ok (view σk (Some sb)) (fst bsP) (snd bsP)
                (Z.of_nat count) Hbe Hbv) as [mB HmB].
    exists (set ck (Z.of_nat count) (arith f mA mB)).
    split; [|split].
    + rewrite forLoop_snoc, Hrun. rewrite Z.add_0_l. unfold body.
      rewrite (iteration_run f sa sb sc asP bsP (Z.of_nat count) σk
                 (mkEntry (ref ec) ck) mA mB);
        [|apply lookup_insert_eq|assumption|assumption].
      simpl. rewrite insert_insert_eq. reflexivity.
    + rewrite set_length. exact Hlen.
    + intros j Hj. rewrite element_set_other by lia. apply Hrest. lia.
Qed.

Lemma get_same_element (buf buf' : ArrayBuffer) (i : Z) :
  length buf' = length buf -> element buf' i = element buf i ->
  get buf' i = get buf i.
Proof.
  intros Hlen He. unfold get, length32, byteLength. rewrite Hlen, He.
  reflexivity.
Qed.

(** X20.  An operation may accumulate in place.  When the output slot is
    also the first input and that input's tracker reads, at every output
    position [i], position [i] itself, element [i] of the buffer ends as
    the operator applied to the element [i] it held at the call and to the
    operand of the second input, rounded to float32. *)
Theorem executeOpSync_in_place {enc : NaNEncoding} (op : BackendOp) σ (sa sb : Z)
    (as_ bs : ShapeTracker) (ea eb : Entry) :
  buffers σ !! sa = Some ea ->
  buffers σ !! sb = Some eb ->
  sb <> sa ->
  byteLength (buffer ea) mod 4 = 0 ->
  byteLength (buffer eb) mod 4 = 0 ->
  let n := length32 (buffer ea) in
  let asP := expOf as_ n in
  let bsP := expOf bs n in
  (forall i, 0 <= i < n ->
     evaluate {[ "gidx"%string := i ]} (fst asP) = Ok i
     /\ exists v, evaluate {[ "gidx"%string := i ]} (snd asP) = Ok v
                  /\ truthy v = true) ->
  exists σ' c',
    executeOpSync op [sa; sb] [as_; bs] [sa] σ = (Ok tt, σ')
    /\ buffers σ' !! sa = Some (mkEntry (ref ea) c')
    /\ length32 c' = n
    /\ forall i, 0 <= i < n ->
         exists mB,
           operandValue (buffer eb) (fst bsP) (snd bsP) i = Ok mB
           /\ get c' i
              = Some (fround (arith (operatorOf op) (get (buffer ea) i) mB)).
Proof.
  intros Ha Hb Hne Ha4 Hb4 n asP bsP Hid.
  destruct (expOf_closed as_ n) as [Hae Hav].
  destruct (expOf_closed bs n) as [Hbe Hbv].
  assert (Hn0 : 0 <= n).
  { subst n. unfold length32, byteLength. apply Z.div_pos; lia. }
  destruct (loop_rounds (operatorOf op) sa sb sa asP bsP σ ea (Z.to_nat n)
              Ha Hae Hav Hbe Hbv) as (c' & Hrun & Hlen & Hdone); [lia|].
  exists (mkBackend (<[sa := mkEntry (ref ea) c']> (buffers σ)) (nextSlot σ)), c'.
  split; [|split; [|split]].
  - rewrite executeOpSync_live by (repeat constructor; eauto).
    unfold binaryOp, bind. simpl.
    rewrite (newFloat32Array_ok σ sa ea Ha Ha4).
    rewrite (newFloat32Array_ok σ sb eb Hb Hb4).
    rewrite (newFloat32Array_ok σ sa ea Ha Ha4).
    unfold lengthOf. rewrite (view_live σ sa ea Ha). unfold ret.
    exact Hrun.
  - simpl. apply lookup_insert_eq.
  - unfold length32, byteLength. rewrite Hlen. reflexivity.
  - intros i Hi. destruct (Hdone i) as (mA & mB & HmA & HmB & He); [lia|].
    destruct (loop_rounds_tail (operatorOf op) sa sb sa asP bsP σ ea (Z.to_nat i)
                Ha Hae Hav Hbe Hbv) as (ci & Hruni & Hleni & Hrest).
    rewrite Hruni in HmA, HmB. simpl in HmA, HmB.
    erewrite view_live in HmA by (simpl; apply lookup_insert_eq).
    erewrite view_live in HmB
      by (simpl; rewrite lookup_insert_ne by congruence; exact Hb).
    simpl in HmA.
    exists mB. split; [exact HmB|].
    destruct (Hid i Hi) as (Hidx & v & Hv & Ht).
    unfold operandValue in HmA. rewrite Hv, Ht, Hidx in HmA.
    injection HmA as <-.
    rewrite He. rewrite (get_same_element (buffer ea) ci i Hleni);
      [reflexivity|]. apply Hrest. lia.
Qed.

Lemma executeOpSync_in_place_witness :
  exists σ' c',
    executeOpSync (enc := negativeNaN) Add [1; 2]
      [fromShape [4]; fromShape [4]] [1] threeBuffers
      = (Ok tt, σ')
    /\ buffers σ' !! 1 = Some (mkEntry 1 c')
    /\ c' = [x00; x00; x30; x41; x00; x00; xb0; x41;
             x00; x00; x04; x42; x00; x00; x30; x42].
Proof.
  destruct (executeOpSync_in_place (enc := negativeNaN) Add threeBuffers 1 2
              (fromShape [4]) (fromShape [4])
              (mkEntry 1 (ofList [1; 2; 3; 4]))
              (mkEntry 1 (ofList [10; 20; 30; 40])))
    as (σ' & c' & Hrun & Hc & _);
    try (vm_compute; reflexivity); try (vm_compute; discriminate).
  - intros i Hi. change (length32 (buffer (mkEntry 1 (ofList [1; 2; 3; 4]))))
      with 4 in Hi.
    assert (Hcase : i = 0 \/ i = 1 \/ i = 2 \/ i = 3) by lia.
    destruct Hcase as [-> | [-> | [-> | ->]]];
      (split; [vm_compute; reflexivity | exists 1; split; vm_compute; reflexivity]).
  - exists σ', c'. repeat split; try assumption.
    revert Hrun Hc. vm_compute. intros [= <-]. intros [= <-]. reflexivity.
Defined.

End InPlace.
